(** * The WebSocket poller component (demo/ui/components/websocket_poller.js)

    A shallow embedding of the [WebSocketPoller] custom element together
    with the part of the browser it talks to: the WebSocket objects it
    creates, the timer queue behind [setTimeout], the page location, the
    event target it dispatches to and the console that receives uncaught
    exceptions.  The component's methods are written in a small state and
    exception monad over that world; the browser's event loop is a step
    function that runs one callback to completion per event. *)

From Stdlib Require Import String Ascii NArith ZArith.
From stdpp Require Import base option list gmap strings numbers.

Local Open Scope N_scope.

(** ** Values *)

(** Decoded JSON payloads, as [JSON.parse] returns them. *)
#[local] Unset Elimination Schemes.
Inductive JSON : Type :=
  | JNull
  | JBool (b : bool)
  | JNum (z : Z)
  | JStr (s : string)
  | JArr (items : list JSON)
  | JObj (fields : list (string * JSON)).
#[local] Set Elimination Schemes.

(** The host's JSON decoder.  [JSON.parse] is not part of the component:
    it is taken as an interface, [None] standing for the [SyntaxError] it
    throws on text that is not JSON. *)
Class JSON_API := JSON_parse_text : string → option JSON.

(** Exceptions that can travel through the component's code. *)
Inductive Exn : Type :=
  | SyntaxError (msg : string)
  | TypeError (msg : string).

(** ** The browser's objects *)

(** [window.location], as far as the component reads it.  [host] is the
    serialisation of a parsed host (and port): whatever the page is, it
    holds no fragment delimiter. *)
Fixpoint has_fragment (s : string) : bool :=
  match s with
  | EmptyString => false
  | String c r => if Ascii.eqb c "#" then true else has_fragment r
  end.

Record Location := {
  protocol : string;
  host : string;
  host_serialised : has_fragment host = false
}.

Inductive ReadyState : Type := CONNECTING | OPEN | CLOSING | CLOSED.

Global Instance ReadyState_eq_dec : EqDecision ReadyState.
Proof. solve_decision. Defined.

(** The three arrow functions of the source.  Each captures [this], and
    there is one component, so a closure is identified by its body. *)
Inductive Closure : Type :=
  | OnMessage   (* (event) => { JSON.parse ...; this.dispatchEvent(...) } *)
  | OnClose     (* () => { setTimeout(..., 1000) } *)
  | Reconnect.  (* () => this.connectWebSocket() *)

(** A WebSocket object.  [created] records the clock at construction; the
    code never reads it. *)
Record WebSocket := {
  url : string;
  readyState : ReadyState;
  onmessage : option Closure;
  onclose : option Closure;
  created : N
}.

(** A pending [setTimeout] entry. *)
Record Timer := { due : N; callback : Closure }.

(** [new MesopEvent(name, {action: data})].  The name is whatever
    [this.triggerEvent] holds, [None] for [undefined]. *)
Record MesopEvent := { ev_name : option string; ev_action : JSON }.

(** The component instance: the field set by the constructor and the two
    reactive properties declared in [static properties]. *)
Record Poller := {
  ws : option nat;
  triggerEvent : option string;
  action : option JSON
}.

(** Everything the code can read or change.  A WebSocket handle is its
    index in [sockets]; objects are never removed, a closed socket stays
    in the store with [readyState = CLOSED]. *)
Record World := {
  this : Poller;
  sockets : list WebSocket;
  timers : gmap nat Timer;
  next_timer : nat;
  now : N;
  location : Location;
  dispatched : list MesopEvent;
  console : list Exn
}.

(** Field updates. *)
Definition with_this (f : Poller → Poller) (w : World) : World :=
  {| this := f (this w); sockets := sockets w; timers := timers w;
     next_timer := next_timer w; now := now w; location := location w;
     dispatched := dispatched w; console := console w |}.

Definition with_sockets (f : list WebSocket → list WebSocket) (w : World) : World :=
  {| this := this w; sockets := f (sockets w); timers := timers w;
     next_timer := next_timer w; now := now w; location := location w;
     dispatched := dispatched w; console := console w |}.

Definition with_timers (f : gmap nat Timer → gmap nat Timer) (n : nat) (w : World) : World :=
  {| this := this w; sockets := sockets w; timers := f (timers w);
     next_timer := n; now := now w; location := location w;
     dispatched := dispatched w; console := console w |}.

Definition with_now (t : N) (w : World) : World :=
  {| this := this w; sockets := sockets w; timers := timers w;
     next_timer := next_timer w; now := t; location := location w;
     dispatched := dispatched w; console := console w |}.

Definition with_location (l : Location) (w : World) : World :=
  {| this := this w; sockets := sockets w; timers := timers w;
     next_timer := next_timer w; now := now w; location := l;
     dispatched := dispatched w; console := console w |}.

Definition with_dispatched (e : MesopEvent) (w : World) : World :=
  {| this := this w; sockets := sockets w; timers := timers w;
     next_timer := next_timer w; now := now w; location := location w;
     dispatched := dispatched w ++ [e]; console := console w |}.

Definition with_console (e : Exn) (w : World) : World :=
  {| this := this w; sockets := sockets w; timers := timers w;
     next_timer := next_timer w; now := now w; location := location w;
     dispatched := dispatched w; console := console w ++ [e] |}.

Definition set_ws (h : option nat) (p : Poller) : Poller :=
  {| ws := h; triggerEvent := triggerEvent p; action := action p |}.

Definition set_triggerEvent (n : option string) (p : Poller) : Poller :=
  {| ws := ws p; triggerEvent := n; action := action p |}.

Definition set_action (a : option JSON) (p : Poller) : Poller :=
  {| ws := ws p; triggerEvent := triggerEvent p; action := a |}.

Definition set_readyState (r : ReadyState) (s : WebSocket) : WebSocket :=
  {| url := url s; readyState := r; onmessage := onmessage s;
     onclose := onclose s; created := created s |}.

Definition set_onmessage (c : Closure) (s : WebSocket) : WebSocket :=
  {| url := url s; readyState := readyState s; onmessage := Some c;
     onclose := onclose s; created := created s |}.

Definition set_onclose (c : Closure) (s : WebSocket) : WebSocket :=
  {| url := url s; readyState := readyState s; onmessage := onmessage s;
     onclose := Some c; created := created s |}.

(** ** The monad of JavaScript statements *)

(** A statement either completes normally with a value or throws; in both
    cases the effects performed so far are kept. *)
Inductive Completion (A : Type) : Type :=
  | Normal (a : A) (w : World)
  | Throw (e : Exn) (w : World).
Arguments Normal {A} a w.
Arguments Throw {A} e w.

Definition JS (A : Type) : Type := World → Completion A.

Global Instance JS_ret : MRet JS := λ A a w, Normal a w.

Global Instance JS_bind : MBind JS := λ A B f m w,
  match m w with
  | Normal a w' => f a w'
  | Throw e w' => Throw e w'
  end.

Definition throw {A} (e : Exn) : JS A := λ w, Throw e w.

(** The world a completion leaves behind. *)
Definition world_of {A} (c : Completion A) : World :=
  match c with Normal _ w => w | Throw _ w => w end.

(** ** Host operations *)

Section Model.
Context {json : JSON_API}.

Definition get_ws : JS (option nat) := λ w, Normal (ws (this w)) w.

Definition put_ws (h : option nat) : JS unit := λ w,
  Normal tt (with_this (set_ws h) w).

Definition get_triggerEvent : JS (option string) := λ w,
  Normal (triggerEvent (this w)) w.

Definition window_location : JS Location := λ w, Normal (location w) w.

(** The checks of the WebSocket constructor that depend on the shape of
    the URL string: the scheme has to be [ws] or [wss], and a fragment is
    refused.  Either failure is a [SyntaxError] thrown synchronously. *)
Definition ws_url_ok (u : string) : bool :=
  (String.prefix "ws://" u || String.prefix "wss://" u) && negb (has_fragment u).

(** [new WebSocket(u)]: a fresh object in state CONNECTING with no handler
    set; the connection is established in the background. *)
Definition new_WebSocket (u : string) : JS nat := λ w,
  if ws_url_ok u then
    Normal (length (sockets w))
      (with_sockets (λ l, l ++ [{| url := u; readyState := CONNECTING;
                                   onmessage := None; onclose := None;
                                   created := now w |}]) w)
  else throw (SyntaxError "The URL is invalid") w.

(** Assignment to a property of [this.ws]; on [null] it is a TypeError. *)
Definition assign (target : option nat) (f : WebSocket → WebSocket) : JS unit := λ w,
  match target with
  | Some h => Normal tt (with_sockets (alter f h) w)
  | None => throw (TypeError "Cannot set properties of null") w
  end.

(** [socket.close()]: nothing on a socket that is CLOSING or CLOSED;
    otherwise the socket becomes CLOSING and its close event follows in a
    later turn of the event loop. *)
Definition close_socket (s : WebSocket) : WebSocket :=
  match readyState s with
  | CLOSING | CLOSED => s
  | CONNECTING | OPEN => set_readyState CLOSING s
  end.

Definition WebSocket_close (target : option nat) : JS unit := λ w,
  match target with
  | Some h => Normal tt (with_sockets (alter close_socket h) w)
  | None => throw (TypeError "Cannot read properties of null") w
  end.

(** [setTimeout(c, delay)]: a new entry due [delay] ms from now; the
    identifier is returned. *)
Definition setTimeout (c : Closure) (delay : N) : JS nat := λ w,
  Normal (next_timer w)
    (with_timers (insert (next_timer w) {| due := now w + delay; callback := c |})
                 (S (next_timer w)) w).

(** [JSON.parse(text)] *)
Definition JSON_parse (text : string) : JS JSON := λ w,
  match JSON_parse_text text with
  | Some v => Normal v w
  | None => throw (SyntaxError "Unexpected token") w
  end.

(** [this.dispatchEvent(e)]: the event reaches the listeners of the host
    UI tree; it is not cancelable, so the call returns [true]. *)
Definition dispatchEvent (e : MesopEvent) : JS bool := λ w,
  Normal true (with_dispatched e w).

(** The lifecycle hooks inherited from LitElement do not touch the state
    modelled here. *)
Definition super_connectedCallback : JS unit := mret tt.
Definition super_disconnectedCallback : JS unit := mret tt.

(** ** The component *)

(** The fixed reconnection delay, in milliseconds. *)
Definition RECONNECT_DELAY : N := 1000.

(** [constructor()]: [this.ws = null]; the reactive properties are
    undefined until the framework sets them. *)
Definition constructor : Poller :=
  {| ws := None; triggerEvent := None; action := None |}.

(** The endpoint of the page at location [l], as the first two lines of
    [connectWebSocket] compute it. *)
Definition wsProtocol_of (l : Location) : string :=
  if String.eqb (protocol l) "https:" then "wss:" else "ws:".

Definition wsUrl_of (l : Location) : string :=
  wsProtocol_of l +:+ "//" +:+ host l +:+ "/__ws__".

(** [connectWebSocket()] *)
Definition connectWebSocket : JS unit :=
  loc ← window_location;
  let wsProtocol :=
    if String.eqb (protocol loc) "https:" then "wss:" else "ws:" in
  let wsUrl := wsProtocol +:+ "//" +:+ host loc +:+ "/__ws__" in
  h ← new_WebSocket wsUrl;
  put_ws (Some h);;
  s1 ← get_ws;
  assign s1 (set_onmessage OnMessage);;
  s2 ← get_ws;
  assign s2 (set_onclose OnClose).

(** [connectedCallback()] *)
Definition connectedCallback : JS unit :=
  super_connectedCallback;;
  connectWebSocket.

(** [disconnectedCallback()] *)
Definition disconnectedCallback : JS unit :=
  super_disconnectedCallback;;
  s ← get_ws;
  match s with
  | Some _ => WebSocket_close s
  | None => mret tt
  end.

(** The body of [this.ws.onmessage]. *)
Definition onmessage_body (event_data : string) : JS unit :=
  data ← JSON_parse event_data;
  name ← get_triggerEvent;
  dispatchEvent {| ev_name := name; ev_action := data |};;
  mret tt.

(** The body of [this.ws.onclose]. *)
Definition onclose_body : JS unit :=
  setTimeout Reconnect RECONNECT_DELAY;;
  mret tt.

(** Calling a closure.  Only the message handler looks at its argument. *)
Definition call (c : Closure) (event_data : string) : JS unit :=
  match c with
  | OnMessage => onmessage_body event_data
  | OnClose => onclose_body
  | Reconnect => connectWebSocket
  end.

(** ** The event loop *)

(** What the outside can do to the page, one event per turn. *)
Inductive Event : Type :=
  | Mount                                   (* the element enters the document *)
  | Unmount                                 (* the element leaves the document *)
  | NetOpen (h : nat)                       (* handshake of socket h succeeded *)
  | NetMessage (h : nat) (text : string)    (* a text frame arrived on socket h *)
  | NetClose (h : nat)                      (* socket h is closed: failed connect,
                                               drop, server close or end of the
                                               closing handshake *)
  | Elapse (dt : N)                         (* the clock advances *)
  | Fire (id : nat)                         (* the scheduler runs a due timer *)
  | Navigate (l : Location)                 (* the page location changes *)
  | SetTriggerEvent (n : option string)     (* the framework sets a property *)
  | SetAction (a : option JSON).

(** A callback runs to completion; an exception that leaves it is
    reported on the console and the loop goes on. *)
Definition report {A} (c : Completion A) : World :=
  match c with
  | Normal _ w => w
  | Throw e w => with_console e w
  end.

(** Firing an event on a socket runs the handler registered for it, if any. *)
Definition fire_handler (handler : option Closure) (event_data : string) (w : World) : World :=
  match handler with
  | Some c => report (call c event_data w)
  | None => w
  end.

(** One turn.  [None] when the event cannot happen in this world: no such
    socket, a socket in the wrong state, a timer that is not due. *)
Definition step (e : Event) (w : World) : option World :=
  match e with
  | Mount => Some (report (connectedCallback w))
  | Unmount => Some (report (disconnectedCallback w))
  | NetOpen h =>
      s ← sockets w !! h;
      if decide (readyState s = CONNECTING)
      then Some (with_sockets (alter (set_readyState OPEN) h) w)
      else None
  | NetMessage h text =>
      s ← sockets w !! h;
      if decide (readyState s = OPEN)
      then Some (fire_handler (onmessage s) text w)
      else None
  | NetClose h =>
      s ← sockets w !! h;
      if decide (readyState s = CLOSED) then None
      else Some (fire_handler (onclose s) EmptyString
                   (with_sockets (alter (set_readyState CLOSED) h) w))
  | Elapse dt => Some (with_now (now w + dt) w)
  | Fire id =>
      t ← timers w !! id;
      if decide (due t ≤ now w)
      then Some (report (call (callback t) EmptyString
                   (with_timers (delete id) (next_timer w) w)))
      else None
  | Navigate l => Some (with_location l w)
  | SetTriggerEvent n => Some (with_this (set_triggerEvent n) w)
  | SetAction a => Some (with_this (set_action a) w)
  end.

Fixpoint run (evs : list Event) (w : World) : option World :=
  match evs with
  | [] => Some w
  | e :: rest => w' ← step e w; run rest w'
  end.

(** The page right after the element has been constructed. *)
Definition init (l : Location) : World :=
  {| this := constructor; sockets := []; timers := ∅; next_timer := 0;
     now := 0; location := l; dispatched := []; console := [] |}.

End Model.

(** ** A JSON decoder for the scenarios

    A recursive-descent decoder for JSON with integer numbers and the
    two-character escapes, enough to run the scenarios of the
    specification with concrete frames.  The theorems below do not depend
    on it: they hold for any decoder. *)

Local Open Scope char_scope.

Definition is_space (c : ascii) : bool :=
  Ascii.eqb c " " || Ascii.eqb c "009" || Ascii.eqb c "010" || Ascii.eqb c "013".

Fixpoint skip_space (s : list ascii) : list ascii :=
  match s with
  | c :: r => if is_space c then skip_space r else s
  | [] => []
  end.

Definition digit_of (c : ascii) : option Z :=
  let n := N_of_ascii c in
  if ((48 <=? n) && (n <=? 57))%N then Some (Z.of_N n - 48)%Z else None.

Fixpoint digits (acc : Z) (s : list ascii) : Z * list ascii :=
  match s with
  | c :: r =>
      match digit_of c with
      | Some d => digits (10 * acc + d)%Z r
      | None => (acc, s)
      end
  | [] => (acc, [])
  end.

(** An integer: [0], or a non-zero digit followed by digits.  A fraction
    or an exponent is outside the fragment. *)
Definition integer (s : list ascii) : option (Z * list ascii) :=
  match s with
  | c :: r =>
      d ← digit_of c;
      let '(n, r') := if (d =? 0)%Z then (0%Z, r) else digits d r in
      match r' with
      | "." :: _ | "e" :: _ | "E" :: _ => None
      | _ => Some (n, r')
      end
  | [] => None
  end.

Definition unescape (c : ascii) : option ascii :=
  if Ascii.eqb c "034" then Some "034"
  else if Ascii.eqb c "\" then Some "\"
  else if Ascii.eqb c "/" then Some "/"
  else if Ascii.eqb c "n" then Some "010"
  else if Ascii.eqb c "r" then Some "013"
  else if Ascii.eqb c "t" then Some "009"
  else if Ascii.eqb c "b" then Some "008"
  else if Ascii.eqb c "f" then Some "012"
  else None.

(** The characters of a string literal after its opening quote. *)
Fixpoint string_body (s : list ascii) : option (string * list ascii) :=
  match s with
  | [] => None
  | c :: r =>
      if Ascii.eqb c "034" then Some (EmptyString, r)
      else if Ascii.eqb c "\" then
        match r with
        | e :: r' =>
            u ← unescape e;
            '(t, rest) ← string_body r';
            Some (String u t, rest)
        | [] => None
        end
      else if (N_of_ascii c <? 32)%N then None
      else '(t, rest) ← string_body r; Some (String c t, rest)
  end.

Fixpoint value (fuel : nat) (s : list ascii) : option (JSON * list ascii) :=
  match fuel with
  | O => None
  | S f =>
      let fix elements (n : nat) (s : list ascii) (acc : list JSON) :=
        match n with
        | O => None
        | S n' =>
            '(v, r) ← value f s;
            match skip_space r with
            | "," :: r' => elements n' r' (v :: acc)
            | "]" :: r' => Some (JArr (rev (v :: acc)), r')
            | _ => None
            end
        end in
      let fix members (n : nat) (s : list ascii) (acc : list (string * JSON)) :=
        match n with
        | O => None
        | S n' =>
            match skip_space s with
            | "034" :: r =>
                '(k, r1) ← string_body r;
                match skip_space r1 with
                | ":" :: r2 =>
                    '(v, r3) ← value f r2;
                    match skip_space r3 with
                    | "," :: r' => members n' r' ((k, v) :: acc)
                    | "}" :: r' => Some (JObj (rev ((k, v) :: acc)), r')
                    | _ => None
                    end
                | _ => None
                end
            | _ => None
            end
        end in
      match skip_space s with
      | "n" :: "u" :: "l" :: "l" :: r => Some (JNull, r)
      | "t" :: "r" :: "u" :: "e" :: r => Some (JBool true, r)
      | "f" :: "a" :: "l" :: "s" :: "e" :: r => Some (JBool false, r)
      | "034" :: r => '(t, r') ← string_body r; Some (JStr t, r')
      | "[" :: r =>
          match skip_space r with
          | "]" :: r' => Some (JArr [], r')
          | _ => elements f r []
          end
      | "{" :: r =>
          match skip_space r with
          | "}" :: r' => Some (JObj [], r')
          | _ => members f r []
          end
      | "-" :: r => '(n, r') ← integer r; Some (JNum (- n), r')
      | r => '(n, r') ← integer r; Some (JNum n, r')
      end
  end.

Definition decode : JSON_API := λ text,
  '(v, r) ← value (S (String.length text)) (list_ascii_of_string text);
  match skip_space r with
  | [] => Some v
  | _ => None
  end.

Local Close Scope char_scope.

(** A string literal of JSON text: the characters between double quotes
    (character 34). *)
Definition quoted (s : string) : string :=
  String "034"%char (s +:+ String "034"%char EmptyString).

(** The frame [{"type":"ping"}] of the specification's scenario. *)
Definition ping_frame : string :=
  "{" +:+ quoted "type" +:+ ":" +:+ quoted "ping" +:+ "}".

(** ** Observations used in the statements *)

(** The socket a successful [connectWebSocket] leaves in the store. *)
Definition fresh_socket (u : string) (t : N) : WebSocket :=
  {| url := u; readyState := CONNECTING; onmessage := Some OnMessage;
     onclose := Some OnClose; created := t |}.

(** The world after a connection attempt made in [w]. *)
Definition connected (w : World) : World :=
  with_sockets (λ l, l ++ [fresh_socket (wsUrl_of (location w)) (now w)])
    (with_this (set_ws (Some (length (sockets w)))) w).

(** The world after the close event of socket [h]: the socket is CLOSED
    and one reconnection timer has been added. *)
Definition after_close (h : nat) (w : World) : World :=
  with_timers
    (insert (next_timer w)
       {| due := now w + RECONNECT_DELAY; callback := Reconnect |})
    (S (next_timer w))
    (with_sockets (alter (set_readyState CLOSED) h) w).

(** Handles of the sockets that are not CLOSED. *)
Definition live_at (w : World) (h : nat) : bool :=
  match sockets w !! h with
  | Some s => bool_decide (readyState s ≠ CLOSED)
  | None => false
  end.

Definition live_handles (w : World) : list nat :=
  filter (λ h, live_at w h = true) (seq 0 (length (sockets w))).

(** How often the element is mounted in a sequence of events. *)
Fixpoint mounts (evs : list Event) : nat :=
  match evs with
  | [] => 0
  | Mount :: rest => S (mounts rest)
  | _ :: rest => mounts rest
  end.

(** Events by which the framework writes a reactive property. *)
Definition is_property_write (e : Event) : bool :=
  match e with
  | SetTriggerEvent _ | SetAction _ => true
  | _ => false
  end.

(** Events whose turn calls [connectWebSocket]. *)
Definition is_attempt (e : Event) : bool :=
  match e with
  | Mount | Fire _ => true
  | _ => false
  end.

(** One failed connection: socket [h] closes, the delay passes, the timer
    [id] set by its close handler runs. *)
Definition retry (h id : nat) : list Event :=
  [NetClose h; Elapse RECONNECT_DELAY; Fire id].

(** An endpoint that stays unreachable: socket [h] fails, and so do the
    [n] sockets [m], [m + 1], ... created by the retries that follow. *)
Fixpoint keeps_failing (h m id n : nat) : list Event :=
  retry h id ++
  match n with
  | O => []
  | S n' => keeps_failing m (S m) (S id) n'
  end.

(** The reconnection timer set by a close event at time [t]. *)
Definition reconnection (t : N) : Timer :=
  {| due := t + RECONNECT_DELAY; callback := Reconnect |}.

(** Every socket in the store carries the two handlers installed by
    [connectWebSocket]; every pending timer is a reconnection and has an
    identifier already handed out. *)
Definition wired (w : World) : Prop :=
  (∀ h s, sockets w !! h = Some s →
          onmessage s = Some OnMessage ∧ onclose s = Some OnClose)
  ∧ (∀ id t, timers w !! id = Some t →
             callback t = Reconnect ∧ (id < next_timer w)%nat).

(** The element has been constructed and never mounted. *)
Definition unmounted (w : World) : Prop :=
  ws (this w) = None ∧ sockets w = [] ∧ timers w = ∅.

(** One chain of connections: a socket that is not CLOSED is the one held
    in [this.ws] and excludes a pending reconnection, and at most one
    reconnection is pending. *)
Definition single_chain (w : World) : Prop :=
  (∀ h s, sockets w !! h = Some s → readyState s ≠ CLOSED →
          ws (this w) = Some h ∧ timers w = ∅)
  ∧ (size (timers w) ≤ 1)%nat.

(** All sockets created so far are CLOSED. *)
Definition all_closed (w : World) : Prop :=
  ∀ h s, sockets w !! h = Some s → readyState s = CLOSED.

(** The world after one failed connection on socket [h]: the socket is
    CLOSED, the delay has passed, the timer has run and made an attempt. *)
Definition after_retry (h : nat) (w : World) : World :=
  connected
    (with_timers (delete (next_timer w)) (S (next_timer w))
       (with_now (now w + RECONNECT_DELAY) (after_close h w))).

(** The timer [id], set by a close event at time [t], is known to the
    scheduler; while the clock is below [t + 1000] it is still pending. *)
Definition awaits (id : nat) (t : N) (w : World) : Prop :=
  (id < next_timer w)%nat
  ∧ (∀ tm, timers w !! id = Some tm → tm = reconnection t)
  ∧ (now w < t + RECONNECT_DELAY → timers w !! id = Some (reconnection t)).

(** The world a sequence of events leads to from a freshly constructed
    element on page [l] (the initial world if the sequence cannot run). *)
Definition after {json : JSON_API} (evs : list Event) (l : Location) : World :=
  default (init l) (run evs (init l)).

(** What the frames of a run produce: one event for each frame that
    decodes, in the order of arrival, named by the value [triggerEvent]
    has when the frame arrives. *)
Definition name_after (name : option string) (e : Event) : option string :=
  match e with
  | SetTriggerEvent n => n
  | _ => name
  end.

Fixpoint forwarded {json : JSON_API}
    (name : option string) (evs : list Event) : list MesopEvent :=
  match evs with
  | [] => []
  | NetMessage h text :: rest =>
      match JSON_parse_text text with
      | Some v => {| ev_name := name; ev_action := v |} :: forwarded name rest
      | None => forwarded name rest
      end
  | e :: rest => forwarded (name_after name e) rest
  end.

(** The frames of a run that do not decode. *)
Fixpoint malformed {json : JSON_API} (evs : list Event) : nat :=
  match evs with
  | [] => 0
  | NetMessage h text :: rest =>
      match JSON_parse_text text with
      | Some _ => malformed rest
      | None => S (malformed rest)
      end
  | _ :: rest => malformed rest
  end.

(** The number of sockets that are not CLOSED. *)
Definition live_count (w : World) : nat :=
  length (filter (λ s, readyState s ≠ CLOSED) (sockets w)).

(** No socket can deliver a frame or finish a handshake: each one is
    CLOSING or CLOSED. *)
Definition no_delivery (w : World) : Prop :=
  ∀ h s, sockets w !! h = Some s →
         readyState s = CLOSING ∨ readyState s = CLOSED.

(** The sockets of one chain are created at least one delay apart: every
    socket was created in the past, consecutive sockets are 1000 ms apart
    or more, and a pending reconnection is due 1000 ms or more after the
    creation of every socket. *)
Definition paced (w : World) : Prop :=
  (∀ k a b, sockets w !! k = Some a → sockets w !! S k = Some b →
            created a + RECONNECT_DELAY ≤ created b)
  ∧ (∀ h s, sockets w !! h = Some s → created s ≤ now w)
  ∧ (∀ id t h s, timers w !! id = Some t → sockets w !! h = Some s →
                 created s + RECONNECT_DELAY ≤ due t).

(** Every pending timer is a reconnection due within one delay from now. *)
Definition timers_bounded (w : World) : Prop :=
  ∀ id t, timers w !! id = Some t →
          callback t = Reconnect ∧ due t ≤ now w + RECONNECT_DELAY.

(** [this.ws] is the socket created last, [null] while none was created. *)
Definition holds_newest (w : World) : Prop :=
  ws (this w) =
  match sockets w with
  | [] => None
  | _ :: _ => Some (pred (length (sockets w)))
  end.

(** Every socket was opened on the endpoint of some page location. *)
Definition on_endpoint (w : World) : Prop :=
  ∀ h s, sockets w !! h = Some s → ∃ l, url s = wsUrl_of l.

(** The socket held in [this.ws] is OPEN. *)
Definition held_open (w : World) : Prop :=
  ∃ h s, ws (this w) = Some h ∧ sockets w !! h = Some s ∧ readyState s = OPEN.

(** The chain of the newest socket is alive: the socket is not CLOSED, or
    a reconnection is pending. *)
Definition can_resume (w : World) : Prop :=
  (∃ s, sockets w !! pred (length (sockets w)) = Some s
        ∧ readyState s ≠ CLOSED)
  ∨ timers w ≠ ∅.

(** The way back to an open connection from world [w], by the state of
    the newest socket: nothing if it is OPEN; its handshake if it is
    CONNECTING; if it is CLOSING, its close event, one delay, the timer
    that close event sets and the handshake of the socket the timer
    creates; if it is CLOSED, one delay, a pending timer and the handshake
    of the new socket.  The element is not mounted again. *)
Definition resumption (w : World) : list Event :=
  let n := pred (length (sockets w)) in
  let m := length (sockets w) in
  let by_timer :=
    match map_to_list (timers w) with
    | (id, _) :: _ => [Elapse RECONNECT_DELAY; Fire id; NetOpen m]
    | [] => []
    end in
  match sockets w !! n with
  | Some s =>
      match readyState s with
      | OPEN => []
      | CONNECTING => [NetOpen n]
      | CLOSING =>
          [NetClose n; Elapse RECONNECT_DELAY; Fire (next_timer w); NetOpen m]
      | CLOSED => by_timer
      end
  | None => by_timer
  end.

(** A run without the writes to the [action] property, and a world with
    that property cleared. *)
Fixpoint drop_action_writes (evs : list Event) : list Event :=
  match evs with
  | [] => []
  | SetAction _ :: rest => drop_action_writes rest
  | e :: rest => e :: drop_action_writes rest
  end.

Definition erase_action (w : World) : World := with_this (set_action None) w.

(** Pages for the scenarios. *)
Definition secure_page : Location :=
  {| protocol := "https:"; host := "example.test"; host_serialised := eq_refl |}.

Definition plain_page : Location :=
  {| protocol := "http:"; host := "localhost:8080"; host_serialised := eq_refl |}.

(** ** Properties of the host operations and of [connectWebSocket] *)

Section Theory.
Context {json : JSON_API}.

Lemma has_fragment_app (a b : string) :
  has_fragment (a +:+ b) = has_fragment a || has_fragment b.
Proof.
  induction a as [|c a IH]; simpl; [done|].
  destruct (Ascii.eqb c "#"); [done|]. apply IH.
Qed.

Lemma prefix_app (a b : string) : String.prefix a (a +:+ b) = true.
Proof.
  induction a as [|c a IH]; [by destruct b|].
  change (String c a +:+ b) with (String c (a +:+ b)). simpl.
  by destruct (ascii_dec c c).
Qed.

Lemma wsUrl_of_secure (l : Location) :
  protocol l = "https:" → wsUrl_of l = "wss://" +:+ host l +:+ "/__ws__".
Proof. intros H. unfold wsUrl_of, wsProtocol_of. by rewrite H. Qed.

Lemma wsUrl_of_plain (l : Location) :
  protocol l ≠ "https:" → wsUrl_of l = "ws://" +:+ host l +:+ "/__ws__".
Proof.
  intros H. unfold wsUrl_of, wsProtocol_of.
  destruct (String.eqb_spec (protocol l) "https:"); [done|reflexivity].
Qed.

Lemma ws_url_ok_wsUrl (l : Location) : ws_url_ok (wsUrl_of l) = true.
Proof.
  unfold ws_url_ok. apply andb_true_intro. split.
  - unfold wsUrl_of, wsProtocol_of.
    destruct (String.eqb (protocol l) "https:").
    + change ("wss:" +:+ "//" +:+ host l +:+ "/__ws__")
        with ("wss://" +:+ (host l +:+ "/__ws__")).
      by rewrite prefix_app, orb_true_r.
    + change ("ws:" +:+ "//" +:+ host l +:+ "/__ws__")
        with ("ws://" +:+ (host l +:+ "/__ws__")).
      by rewrite prefix_app.
  - unfold wsUrl_of, wsProtocol_of.
    rewrite !has_fragment_app, (host_serialised l).
    by destruct (String.eqb (protocol l) "https:").
Qed.

Lemma alter_last {A} (f : A → A) (l : list A) (x : A) :
  alter f (length l) (l ++ [x]) = l ++ [f x].
Proof.
  rewrite alter_app_r_alt by lia.
  by replace (length l - length l)%nat with 0%nat by lia.
Qed.

(** A connection attempt always completes, and leaves exactly one more
    socket, wired to the two handlers and installed as [this.ws]. *)
Lemma connectWebSocket_eq (w : World) :
  connectWebSocket w = Normal tt (connected w).
Proof.
  unfold connectWebSocket, mbind, JS_bind, window_location, new_WebSocket.
  change ((if String.eqb (protocol (location w)) "https:" then "wss:" else "ws:")
          +:+ "//" +:+ host (location w) +:+ "/__ws__")
    with (wsUrl_of (location w)).
  rewrite ws_url_ok_wsUrl.
  unfold put_ws, get_ws, assign, connected, with_sockets, with_this; simpl.
  by rewrite !alter_last.
Qed.

Lemma connectedCallback_eq (w : World) :
  connectedCallback w = Normal tt (connected w).
Proof.
  unfold connectedCallback, super_connectedCallback, mbind, JS_bind, mret, JS_ret.
  apply connectWebSocket_eq.
Qed.

Lemma disconnectedCallback_eq (w : World) :
  disconnectedCallback w =
  Normal tt match ws (this w) with
            | Some h => with_sockets (alter close_socket h) w
            | None => w
            end.
Proof.
  unfold disconnectedCallback, super_disconnectedCallback, mbind, JS_bind,
    mret, JS_ret, get_ws, WebSocket_close.
  by destruct (ws (this w)).
Qed.

Lemma onclose_body_eq (w : World) :
  onclose_body w =
  Normal tt (with_timers
               (insert (next_timer w)
                  {| due := now w + RECONNECT_DELAY; callback := Reconnect |})
               (S (next_timer w)) w).
Proof. reflexivity. Qed.

Lemma onmessage_body_ok (text : string) (v : JSON) (w : World) :
  JSON_parse_text text = Some v →
  onmessage_body text w =
  Normal tt (with_dispatched
               {| ev_name := triggerEvent (this w); ev_action := v |} w).
Proof.
  intros H. unfold onmessage_body, mbind, JS_bind, JSON_parse. by rewrite H.
Qed.

Lemma onmessage_body_bad (text : string) (w : World) :
  JSON_parse_text text = None →
  onmessage_body text w = Throw (SyntaxError "Unexpected token") w.
Proof.
  intros H. unfold onmessage_body, mbind, JS_bind, JSON_parse. by rewrite H.
Qed.

(** ** One turn of the event loop, event by event *)

Lemma step_Mount (w : World) : step Mount w = Some (connected w).
Proof. unfold step. by rewrite connectedCallback_eq. Qed.

Lemma step_Unmount (w : World) :
  step Unmount w =
  Some match ws (this w) with
       | Some h => with_sockets (alter close_socket h) w
       | None => w
       end.
Proof. unfold step. by rewrite disconnectedCallback_eq. Qed.

Lemma step_NetOpen (h : nat) (w w' : World) :
  step (NetOpen h) w = Some w' →
  ∃ s, sockets w !! h = Some s ∧ readyState s = CONNECTING
       ∧ w' = with_sockets (alter (set_readyState OPEN) h) w.
Proof.
  unfold step. intros H.
  destruct (sockets w !! h) as [s|] eqn:Hs; simpl in H; [|done].
  case_decide; [|done]. exists s. by injection H as <-.
Qed.

Lemma step_NetMessage (h : nat) (text : string) (w w' : World) :
  wired w →
  step (NetMessage h text) w = Some w' →
  ∃ s, sockets w !! h = Some s ∧ readyState s = OPEN
       ∧ w' = report (onmessage_body text w).
Proof.
  intros [Hw _]. unfold step. intros H.
  destruct (sockets w !! h) as [s|] eqn:Hs; simpl in H; [|done].
  case_decide; [|done]. exists s.
  destruct (Hw h s Hs) as [Hm _]. rewrite Hm in H.
  injection H as <-. done.
Qed.

Lemma step_NetClose (h : nat) (w w' : World) :
  wired w →
  step (NetClose h) w = Some w' →
  ∃ s, sockets w !! h = Some s ∧ readyState s ≠ CLOSED
       ∧ w' = after_close h w.
Proof.
  intros [Hw _]. unfold step. intros H.
  destruct (sockets w !! h) as [s|] eqn:Hs; simpl in H; [|done].
  case_decide; [done|]. exists s.
  destruct (Hw h s Hs) as [_ Hc]. rewrite Hc in H.
  injection H as <-. done.
Qed.

Lemma step_Fire (id : nat) (w w' : World) :
  wired w →
  step (Fire id) w = Some w' →
  ∃ t, timers w !! id = Some t ∧ due t ≤ now w
       ∧ w' = connected (with_timers (delete id) (next_timer w) w).
Proof.
  intros [_ Hw]. unfold step. intros H.
  destruct (timers w !! id) as [t|] eqn:Ht; simpl in H; [|done].
  case_decide; [|done]. exists t.
  destruct (Hw id t Ht) as [Hc _]. rewrite Hc in H. simpl in H.
  rewrite connectWebSocket_eq in H. injection H as <-. done.
Qed.

Lemma lookup_alter_inv {A} (f : A → A) (l : list A) (i j : nat) (y : A) :
  alter f i l !! j = Some y →
  ∃ x, l !! j = Some x ∧ y = (if decide (i = j) then f x else x).
Proof.
  rewrite list_lookup_alter. case_decide as Hij.
  - subst j. destruct (l !! i) as [x|]; [|done].
    intros [= <-]. by exists x.
  - intros Hy. by exists y.
Qed.

Lemma lookup_alter_Some {A} (f : A → A) (l : list A) (i j : nat) (y : A) :
  alter f i l !! j = Some y →
  ∃ x, l !! j = Some x ∧ (y = x ∨ (i = j ∧ y = f x)).
Proof.
  intros (x & Hx & ->)%lookup_alter_inv. exists x. split; [done|].
  case_decide; [right|left]; done.
Qed.

Lemma lookup_snoc_inv {A} (l : list A) (x y : A) (j : nat) :
  (l ++ [x]) !! j = Some y →
  l !! j = Some y ∨ (j = length l ∧ y = x).
Proof.
  rewrite lookup_snoc_Some. intros [[_ H]|[H1 H2]]; [by left|by right].
Qed.

(** ** Invariants of the reachable worlds *)

Lemma close_socket_handlers (s : WebSocket) :
  onmessage (close_socket s) = onmessage s ∧ onclose (close_socket s) = onclose s.
Proof. unfold close_socket. by destruct (readyState s). Qed.

Lemma wired_init (l : Location) : wired (init l).
Proof. split; intros ? ? H; simpl in H; [done|by rewrite lookup_empty in H]. Qed.

Lemma wired_sockets (f : WebSocket → WebSocket) (h : nat) (w : World) :
  (∀ s, onmessage (f s) = onmessage s ∧ onclose (f s) = onclose s) →
  wired w → wired (with_sockets (alter f h) w).
Proof.
  intros Hf [Hs Ht]. split; [|exact Ht].
  intros j y Hy. simpl in Hy.
  apply lookup_alter_Some in Hy as (x & Hx & [->|[_ ->]]).
  - eauto.
  - destruct (Hf x) as [-> ->]. eauto.
Qed.

Lemma wired_connected (w : World) : wired w → wired (connected w).
Proof.
  intros [Hs Ht]. split; [|exact Ht].
  intros j y Hy. simpl in Hy.
  apply lookup_snoc_inv in Hy as [Hy|[_ ->]]; [eauto|done].
Qed.

Lemma wired_after_close (h : nat) (w : World) : wired w → wired (after_close h w).
Proof.
  intros Hw.
  destruct (wired_sockets (set_readyState CLOSED) h w (λ _, conj eq_refl eq_refl) Hw)
    as [Hs Ht].
  split; [exact Hs|].
  intros id t Hid. simpl in Hid |- *.
  apply lookup_insert_Some in Hid as [[<- <-]|[_ Hid]]; [split; [done|lia]|].
  destruct (Ht id t Hid). split; [done|]. simpl in *. lia.
Qed.

Lemma wired_delete (id : nat) (w : World) :
  wired w → wired (with_timers (delete id) (next_timer w) w).
Proof.
  intros [Hs Ht]. split; [exact Hs|].
  intros j t Hj. simpl in Hj |- *.
  apply lookup_delete_Some in Hj as [_ Hj]. eauto.
Qed.

Lemma wired_report_onmessage (text : string) (w : World) :
  wired w → wired (report (onmessage_body text w)).
Proof.
  intros Hw. destruct (JSON_parse_text text) as [v|] eqn:Hv.
  - by rewrite (onmessage_body_ok _ _ _ Hv).
  - by rewrite (onmessage_body_bad _ _ Hv).
Qed.

Lemma wired_step (e : Event) (w w' : World) :
  wired w → step e w = Some w' → wired w'.
Proof.
  intros Hw H. destruct e.
  - rewrite step_Mount in H. injection H as <-. by apply wired_connected.
  - rewrite step_Unmount in H. injection H as <-.
    destruct (ws (this w)); [|done].
    apply wired_sockets; [apply close_socket_handlers|done].
  - apply step_NetOpen in H as (s & _ & _ & ->). by apply wired_sockets.
  - apply step_NetMessage in H as (s & _ & _ & ->); [|done].
    by apply wired_report_onmessage.
  - apply step_NetClose in H as (s & _ & _ & ->); [|done].
    by apply wired_after_close.
  - injection H as <-. exact Hw.
  - apply step_Fire in H as (t & _ & _ & ->); [|done].
    by apply wired_connected, wired_delete.
  - injection H as <-. exact Hw.
  - injection H as <-. exact Hw.
  - injection H as <-. exact Hw.
Qed.

Lemma run_app (evs1 evs2 : list Event) (w : World) :
  run (evs1 ++ evs2) w = w' ← run evs1 w; run evs2 w'.
Proof.
  revert w. induction evs1 as [|e evs1 IH]; intros w; simpl; [done|].
  destruct (step e w); simpl; [apply IH|done].
Qed.

Lemma run_cons (e : Event) (evs : list Event) (w w1 : World) :
  step e w = Some w1 → run (e :: evs) w = run evs w1.
Proof. intros H. simpl. by rewrite H. Qed.

Lemma wired_run (evs : list Event) (w w' : World) :
  wired w → run evs w = Some w' → wired w'.
Proof.
  revert w. induction evs as [|e evs IH]; intros w Hw H; simpl in H.
  - by injection H as <-.
  - destruct (step e w) as [w1|] eqn:He; simpl in H; [|done].
    eapply IH; [|exact H]. by eapply wired_step.
Qed.

(** The message handler touches neither the sockets, the timers nor the
    component. *)
Lemma report_onmessage_frame (text : string) (w : World) :
  let w' := report (onmessage_body text w) in
  this w' = this w ∧ sockets w' = sockets w ∧ timers w' = timers w
  ∧ next_timer w' = next_timer w ∧ now w' = now w ∧ location w' = location w.
Proof.
  destruct (JSON_parse_text text) as [v|] eqn:Hv; simpl.
  - by rewrite (onmessage_body_ok _ _ _ Hv).
  - by rewrite (onmessage_body_bad _ _ Hv).
Qed.

Lemma unmounted_init (l : Location) : unmounted (init l).
Proof. done. Qed.

Lemma unmounted_step (e : Event) (w w' : World) :
  unmounted w → mounts [e] = 0%nat → step e w = Some w' → unmounted w'.
Proof.
  intros (Hws & Hs & Ht) Hm H. destruct e; try done.
  - rewrite step_Unmount, Hws in H. by injection H as <-.
  - unfold step in H. by rewrite Hs in H.
  - unfold step in H. by rewrite Hs in H.
  - unfold step in H. by rewrite Hs in H.
  - by injection H as <-.
  - unfold step in H. by rewrite Ht, lookup_empty in H.
  - by injection H as <-.
  - by injection H as <-.
  - by injection H as <-.
Qed.

Lemma unmounted_chain (w : World) : unmounted w → single_chain w.
Proof.
  intros (_ & Hs & Ht). split.
  - intros h s H. by rewrite Hs in H.
  - rewrite Ht, map_size_empty. lia.
Qed.

Lemma chain_mount (w : World) : unmounted w → single_chain (connected w).
Proof.
  intros (_ & Hs & Ht). split; simpl.
  - intros h s H _. rewrite Hs in H |- *. simpl in *.
    destruct h; [done|]. by destruct h.
  - rewrite Ht, map_size_empty. lia.
Qed.

Lemma chain_no_live (w : World) (id : nat) (t : Timer) :
  single_chain w → timers w !! id = Some t → all_closed w.
Proof.
  intros [Hc _] Ht h s Hs.
  destruct (decide (readyState s = CLOSED)) as [|Hl]; [done|].
  destruct (Hc h s Hs Hl) as [_ He]. by rewrite He, lookup_empty in Ht.
Qed.

Lemma chain_step (e : Event) (w w' : World) :
  wired w → single_chain w → mounts [e] = 0%nat →
  step e w = Some w' → single_chain w'.
Proof.
  intros Hw Hch Hm H. pose proof Hch as [Hc Hn]. destruct e; try done.
  - (* Unmount *)
    rewrite step_Unmount in H. injection H as <-.
    destruct (ws (this w)) as [h0|] eqn:Hws; [|done]. split; [|done].
    intros h s' Hs' Hl. simpl in *. rewrite Hws.
    apply lookup_alter_inv in Hs' as (x & Hx & ->).
    apply (Hc h x Hx). intros Hx'. apply Hl.
    case_decide; [|done]. unfold close_socket. by rewrite Hx'.
  - (* NetOpen *)
    apply step_NetOpen in H as (s & Hs & Hr & ->). split; [|done].
    intros j s' Hs' Hl. simpl in *.
    apply lookup_alter_inv in Hs' as (x & Hx & ->).
    apply (Hc j x Hx). case_decide; [|done]. subst j.
    rewrite Hs in Hx. injection Hx as <-. by rewrite Hr.
  - (* NetMessage *)
    apply step_NetMessage in H as (s & _ & _ & ->); [|done].
    destruct (report_onmessage_frame text w) as (Ht & Hs & Hti & _).
    split; [|by rewrite Hti]. intros j s' Hs' Hl.
    rewrite Ht, Hti. rewrite Hs in Hs'. eauto.
  - (* NetClose *)
    apply step_NetClose in H as (s & Hs & Hr & ->); [|done].
    destruct (Hc h s Hs Hr) as [Hws He]. split; simpl.
    + intros j s' Hs' Hl.
      apply lookup_alter_inv in Hs' as (x & Hx & ->).
      case_decide as Hj; [done|].
      destruct (Hc j x Hx Hl) as [Hws' _]. congruence.
    + rewrite He, map_size_insert_None, map_size_empty; [lia|apply lookup_empty].
  - (* Elapse *)
    by injection H as <-.
  - (* Fire *)
    apply step_Fire in H as (t & Ht & _ & ->); [|done].
    assert (delete id (timers w) = ∅) as He.
    { apply map_size_empty_inv. rewrite map_size_delete_Some by eauto. lia. }
    split; simpl.
    + intros j s' Hs' Hl. rewrite He.
      apply lookup_snoc_inv in Hs' as [Hs'|[-> _]]; [|done].
      destruct Hl. eapply chain_no_live; [split| |]; eauto.
    + rewrite He, map_size_empty. lia.
  - by injection H as <-.
  - by injection H as <-.
  - by injection H as <-.
Qed.

Lemma chain_run (evs : list Event) (w w' : World) :
  wired w → single_chain w → mounts evs = 0%nat →
  run evs w = Some w' → single_chain w'.
Proof.
  revert w. induction evs as [|e evs IH]; intros w Hw Hc Hm H; simpl in H.
  - by injection H as <-.
  - destruct (step e w) as [w1|] eqn:He; simpl in H; [|done].
    assert (mounts [e] = 0%nat ∧ mounts evs = 0%nat) as [H1 H2]
      by (destruct e; simpl in *; (done || lia)).
    eapply IH; [| |exact H2|exact H]; [by eapply wired_step|by eapply chain_step].
Qed.

(** A run that mounts the element at most once stays on one chain. *)
Lemma mount_once_chain (evs : list Event) (w w' : World) :
  wired w → unmounted w → (mounts evs ≤ 1)%nat →
  run evs w = Some w' → single_chain w'.
Proof.
  revert w. induction evs as [|e evs IH]; intros w Hw Hu Hm H; simpl in H.
  - injection H as <-. by apply unmounted_chain.
  - destruct (step e w) as [w1|] eqn:He; simpl in H; [|done].
    assert (wired w1) as Hw1 by (by eapply wired_step).
    destruct (decide (mounts [e] = 0%nat)) as [H0|H1].
    + eapply (IH w1); [done| |  |done].
      * by eapply unmounted_step.
      * destruct e; simpl in *; (done || lia).
    + destruct e; try done. rewrite step_Mount in He. injection He as <-.
      eapply chain_run; [done|by apply chain_mount| |exact H].
      simpl in Hm. lia.
Qed.

Lemma mounts_app (evs1 evs2 : list Event) :
  mounts (evs1 ++ evs2) = (mounts evs1 + mounts evs2)%nat.
Proof.
  induction evs1 as [|e evs1 IH]; [done|].
  destruct e; simpl; rewrite IH; lia.
Qed.

Lemma unmounted_run (evs : list Event) (w w' : World) :
  unmounted w → mounts evs = 0%nat → run evs w = Some w' → unmounted w'.
Proof.
  revert w. induction evs as [|e evs IH]; intros w Hu Hm H; simpl in H.
  - by injection H as <-.
  - destruct (step e w) as [w1|] eqn:He; simpl in H; [|done].
    assert (mounts [e] = 0%nat ∧ mounts evs = 0%nat) as [H1 H2]
      by (destruct e; simpl in *; (done || lia)).
    eapply IH; [|exact H2|exact H]. by eapply unmounted_step.
Qed.

(** A socket is created in a turn exactly when the turn is a connection
    attempt; the clock moves only with [Elapse]. *)
Lemma step_sockets_length (e : Event) (w w' : World) :
  wired w → step e w = Some w' →
  length (sockets w') =
  if is_attempt e then S (length (sockets w)) else length (sockets w).
Proof.
  intros Hw H. destruct e; simpl.
  - rewrite step_Mount in H. injection H as <-. simpl.
    rewrite length_app. simpl. lia.
  - rewrite step_Unmount in H. injection H as <-.
    destruct (ws (this w)); [|done]. simpl. apply length_alter.
  - apply step_NetOpen in H as (s & _ & _ & ->). simpl. apply length_alter.
  - apply step_NetMessage in H as (s & _ & _ & ->); [|done].
    destruct (report_onmessage_frame text w) as (_ & Hs & _). by rewrite Hs.
  - apply step_NetClose in H as (s & _ & _ & ->); [|done]. simpl.
    apply length_alter.
  - by injection H as <-.
  - apply step_Fire in H as (t & _ & _ & ->); [|done]. simpl.
    rewrite length_app. simpl. lia.
  - by injection H as <-.
  - by injection H as <-.
  - by injection H as <-.
Qed.

Lemma step_now (e : Event) (w w' : World) :
  wired w → step e w = Some w' → now w ≤ now w'.
Proof.
  intros Hw H. destruct e.
  - rewrite step_Mount in H. by injection H as <-.
  - rewrite step_Unmount in H. injection H as <-. by destruct (ws (this w)).
  - by apply step_NetOpen in H as (s & _ & _ & ->).
  - apply step_NetMessage in H as (s & _ & _ & ->); [|done].
    destruct (report_onmessage_frame text w) as (_ & _ & _ & _ & Hn & _).
    by rewrite Hn.
  - by apply step_NetClose in H as (s & _ & _ & ->).
  - injection H as <-. simpl. lia.
  - by apply step_Fire in H as (t & _ & _ & ->).
  - by injection H as <-.
  - by injection H as <-.
  - by injection H as <-.
Qed.

Lemma run_now (evs : list Event) (w w' : World) :
  wired w → run evs w = Some w' → now w ≤ now w'.
Proof.
  revert w. induction evs as [|e evs IH]; intros w Hw H; simpl in H.
  - by injection H as <-.
  - destruct (step e w) as [w1|] eqn:He; simpl in H; [|done].
    transitivity (now w1); [by eapply step_now|].
    eapply IH; [|exact H]. by eapply wired_step.
Qed.

(** ** A pending reconnection *)

Lemma wired_fresh (w : World) : wired w → timers w !! next_timer w = None.
Proof.
  intros [_ Ht]. destruct (timers w !! next_timer w) as [t|] eqn:H; [|done].
  destruct (Ht _ _ H). lia.
Qed.

Lemma awaits_after_close (h : nat) (w : World) :
  awaits (next_timer w) (now w) (after_close h w).
Proof.
  split; [simpl; lia|]. simpl. rewrite lookup_insert_eq.
  split; [by intros tm [= <-]|done].
Qed.

Lemma awaits_step (id : nat) (t : N) (e : Event) (w w' : World) :
  wired w → awaits id t w → step e w = Some w' → awaits id t w'.
Proof.
  intros Hw (Hid & Hsame & Hpend) H. destruct e.
  - rewrite step_Mount in H. by injection H as <-.
  - rewrite step_Unmount in H. injection H as <-. by destruct (ws (this w)).
  - by apply step_NetOpen in H as (s & _ & _ & ->).
  - apply step_NetMessage in H as (s & _ & _ & ->); [|done].
    destruct (report_onmessage_frame text w) as (_ & _ & Ht & Hn & Hnow & _).
    unfold awaits. by rewrite Ht, Hn, Hnow.
  - apply step_NetClose in H as (s & _ & _ & ->); [|done].
    unfold awaits. simpl. rewrite lookup_insert_ne by lia.
    split; [lia|done].
  - injection H as <-. unfold awaits. simpl.
    split; [done|]. split; [done|]. intros Hlt. apply Hpend. lia.
  - apply step_Fire in H as (tm & Htm & Hdue & ->); [|done].
    unfold awaits. simpl. split; [done|].
    destruct (decide (id0 = id)) as [->|Hne].
    + rewrite lookup_delete_eq. split; [done|]. intros Hlt.
      rewrite (Hsame _ Htm) in Hdue. simpl in Hdue. lia.
    + by rewrite lookup_delete_ne.
  - by injection H as <-.
  - by injection H as <-.
  - by injection H as <-.
Qed.

Lemma awaits_run (id : nat) (t : N) (evs : list Event) (w w' : World) :
  wired w → awaits id t w → run evs w = Some w' → awaits id t w'.
Proof.
  revert w. induction evs as [|e evs IH]; intros w Hw Ha H; simpl in H.
  - by injection H as <-.
  - destruct (step e w) as [w1|] eqn:He; simpl in H; [|done].
    eapply IH; [| |exact H]; [by eapply wired_step|by eapply awaits_step].
Qed.

Lemma size_le_1_key {A} (m : gmap nat A) (i j : nat) (x y : A) :
  (size m ≤ 1)%nat → m !! i = Some x → m !! j = Some y → i = j.
Proof.
  intros Hsz Hi Hj. destruct (decide (i = j)) as [|Hne]; [done|].
  assert (size (delete i m) = pred (size m)) as H1
    by (apply map_size_delete_Some; eauto).
  assert (delete i m !! j = Some y) as H2 by (by rewrite lookup_delete_ne).
  assert (size (delete i m) ≠ 0%nat) as H3.
  { apply map_size_non_empty_iff. intros He. by rewrite He, lookup_empty in H2. }
  lia.
Qed.

(** On a single chain, nothing but the pending timer can start a
    connection, and the timer cannot run before it is due. *)
Lemma quiet_step (id : nat) (tm : Timer) (e : Event) (w w' : World) :
  wired w → single_chain w → timers w !! id = Some tm → now w < due tm →
  mounts [e] = 0%nat → step e w = Some w' →
  length (sockets w') = length (sockets w).
Proof.
  intros Hw [_ Hsz] Htm Hlt Hm H.
  rewrite (step_sockets_length e w w' Hw H).
  destruct e; try done.
  apply step_Fire in H as (tm' & Htm' & Hdue & _); [|done].
  assert (id0 = id) as -> by (by eapply size_le_1_key).
  rewrite Htm in Htm'. injection Htm' as <-. lia.
Qed.

Lemma quiet_run (id : nat) (t : N) (evs : list Event) (w w' : World) :
  wired w → single_chain w → awaits id t w → mounts evs = 0%nat →
  run evs w = Some w' → now w' < t + RECONNECT_DELAY →
  length (sockets w') = length (sockets w).
Proof.
  revert w. induction evs as [|e evs IH]; intros w Hw Hc Ha Hm H Hlt; simpl in H.
  - by injection H as <-.
  - destruct (step e w) as [w1|] eqn:He; simpl in H; [|done].
    assert (mounts [e] = 0%nat ∧ mounts evs = 0%nat) as [H1 H2]
      by (destruct e; simpl in *; (done || lia)).
    assert (wired w1) as Hw1 by (by eapply wired_step).
    assert (now w ≤ now w1) by (by eapply step_now).
    assert (now w1 ≤ now w') by (by eapply run_now).
    destruct Ha as (Hid & Hsame & Hpend).
    rewrite (IH w1); [| | | | | |]; try done.
    + eapply (quiet_step id); [done|done|apply Hpend; lia| |done|done].
      simpl. lia.
    + by apply (chain_step e w w1).
    + by apply (awaits_step id t e w w1).
Qed.

(** ** Enabled events *)

Lemma step_NetClose_live (h : nat) (s : WebSocket) (w : World) :
  wired w → sockets w !! h = Some s → readyState s ≠ CLOSED →
  step (NetClose h) w = Some (after_close h w).
Proof.
  intros [Hw _] Hs Hl. unfold step. rewrite Hs. simpl.
  case_decide; [done|]. destruct (Hw h s Hs) as [_ ->]. reflexivity.
Qed.

Lemma step_Fire_due (id : nat) (tm : Timer) (w : World) :
  timers w !! id = Some tm → callback tm = Reconnect → due tm ≤ now w →
  step (Fire id) w = Some (connected (with_timers (delete id) (next_timer w) w)).
Proof.
  intros Htm Hc Hd. unfold step. rewrite Htm. simpl.
  case_decide; [|done]. rewrite Hc. simpl. by rewrite connectWebSocket_eq.
Qed.

Lemma retry_run (h : nat) (s : WebSocket) (w : World) :
  wired w → sockets w !! h = Some s → readyState s ≠ CLOSED →
  run (retry h (next_timer w)) w = Some (after_retry h w).
Proof.
  intros Hw Hs Hl. unfold retry.
  rewrite (run_cons _ _ _ _ (step_NetClose_live h s w Hw Hs Hl)).
  rewrite (run_cons (Elapse RECONNECT_DELAY) _ _ _ eq_refl).
  erewrite run_cons; [reflexivity|].
  apply (step_Fire_due _ (reconnection (now w))); [|done|simpl; lia].
  simpl. apply lookup_insert_eq.
Qed.

Lemma wired_after_retry (h : nat) (w : World) : wired w → wired (after_retry h w).
Proof.
  intros Hw. apply wired_connected.
  apply (wired_delete (next_timer w)
           (with_now (now w + RECONNECT_DELAY) (after_close h w))).
  by apply (wired_after_close h w).
Qed.

Lemma timers_after_retry (h : nat) (w : World) :
  wired w → timers (after_retry h w) = timers w.
Proof.
  intros Hw. simpl. rewrite delete_insert_eq.
  apply delete_id, wired_fresh, Hw.
Qed.

(** However many times the endpoint refuses, the next attempt is made. *)
Lemma keeps_failing_run (n : nat) :
  ∀ (w : World) (h : nat) (s : WebSocket),
    wired w → sockets w !! h = Some s → readyState s ≠ CLOSED →
    ∃ w', run (keeps_failing h (length (sockets w)) (next_timer w) n) w = Some w'
          ∧ wired w'
          ∧ length (sockets w') = (length (sockets w) + S n)%nat
          ∧ ws (this w') = Some (length (sockets w) + n)%nat
          ∧ now w' = now w + RECONNECT_DELAY * N.of_nat (S n)
          ∧ sockets w' !! (length (sockets w) + n)%nat
            = Some (fresh_socket (wsUrl_of (location w)) (now w'))
          ∧ timers w' = timers w.
Proof.
  induction n as [|n IH]; intros w h s Hw Hs Hl.
  - exists (after_retry h w).
    split; [exact (retry_run h s w Hw Hs Hl)|]. split; [by apply wired_after_retry|].
    split; [simpl; rewrite length_app, length_alter; simpl; lia|].
    split; [simpl; by rewrite length_alter, Nat.add_0_r|].
    split; [simpl; lia|].
    split; [|by apply timers_after_retry].
    simpl. rewrite Nat.add_0_r.
    rewrite <- (length_alter (set_readyState CLOSED) (sockets w) h) at 1.
    by rewrite list_lookup_middle.
  - change (keeps_failing h (length (sockets w)) (next_timer w) (S n))
      with (retry h (next_timer w) ++
            keeps_failing (length (sockets w)) (S (length (sockets w)))
              (S (next_timer w)) n).
    rewrite run_app.
    rewrite (retry_run h s w Hw Hs Hl). simpl mbind.
    set (w1 := after_retry h w).
    assert (length (sockets w1) = S (length (sockets w))) as Hlen
      by (subst w1; simpl; rewrite length_app, length_alter; simpl; lia).
    assert (sockets w1 !! length (sockets w)
            = Some (fresh_socket (wsUrl_of (location w)) (now w + RECONNECT_DELAY)))
      as Hnew.
    { subst w1. simpl.
      rewrite <- (length_alter (set_readyState CLOSED) (sockets w) h) at 1.
      by rewrite list_lookup_middle. }
    destruct (IH w1 (length (sockets w)) _ (wired_after_retry h w Hw) Hnew)
      as (w' & Hrun & Hw' & Hl' & Hws' & Hnow' & Hs' & Ht'); [done|].
    exists w'. rewrite Hlen in Hrun, Hl', Hws', Hs'.
    change (next_timer w1) with (S (next_timer w)) in Hrun.
    split; [exact Hrun|]. split; [exact Hw'|].
    split; [lia|].
    split; [rewrite Hws'; f_equal; lia|].
    split; [rewrite Hnow'; subst w1; simpl; lia|].
    split; [|rewrite Ht'; by apply timers_after_retry].
    replace (length (sockets w) + S n)%nat with (S (length (sockets w)) + n)%nat by lia.
    exact Hs'.
Qed.

(** ** At most one live socket on a single chain *)




Lemma step_NetMessage_open (h : nat) (s : WebSocket) (text : string) (w : World) :
  wired w → sockets w !! h = Some s → readyState s = OPEN →
  step (NetMessage h text) w = Some (report (onmessage_body text w)).
Proof.
  intros [Hw _] Hs Ho. unfold step. rewrite Hs. simpl.
  case_decide; [|done]. destruct (Hw h s Hs) as [-> _]. reflexivity.
Qed.

Lemma reachable_wired (l : Location) (evs : list Event) (w : World) :
  run evs (init l) = Some w → wired w.
Proof. apply wired_run, wired_init. Qed.

(** A closure of the component never writes a reactive property. *)
Lemma call_properties (c : Closure) (data : string) (w : World) :
  let w' := report (call c data w) in
  triggerEvent (this w') = triggerEvent (this w) ∧ action (this w') = action (this w).
Proof.
  destruct c; simpl.
  - by destruct (report_onmessage_frame data w) as (-> & _).
  - done.
  - by rewrite connectWebSocket_eq.
Qed.

(** * The claims *)

(** C2.  A frame whose text is not JSON: the handler body stops at
    [JSON.parse], the [SyntaxError] leaves it uncaught and the event loop
    reports it on the console.  No event is dispatched, the socket keeps
    its state and its handlers, the component and the timers are
    untouched, and the next well-formed frame on the same socket is
    dispatched as usual. *)
Theorem malformed_frame_is_isolated
    (l : Location) (evs : list Event) (w w1 : World) (h : nat) (text : string) :
  run evs (init l) = Some w →
  step (NetMessage h text) w = Some w1 →
  JSON_parse_text text = None →
  dispatched w1 = dispatched w
  ∧ sockets w1 = sockets w
  ∧ this w1 = this w
  ∧ timers w1 = timers w
  ∧ console w1 = console w ++ [SyntaxError "Unexpected token"]
  ∧ ∀ text' v, JSON_parse_text text' = Some v →
      ∃ w2, step (NetMessage h text') w1 = Some w2
            ∧ dispatched w2 =
              dispatched w ++ [{| ev_name := triggerEvent (this w); ev_action := v |}]
            ∧ sockets w2 = sockets w.
Proof.
  intros Hrun Hstep Hbad.
  pose proof (reachable_wired _ _ _ Hrun) as Hw.
  pose proof (wired_step _ _ _ Hw Hstep) as Hw1.
  apply step_NetMessage in Hstep as (s & Hs & Ho & ->); [|done].
  rewrite (onmessage_body_bad _ _ Hbad) in Hw1 |- *. simpl.
  repeat (split; [done|]).
  intros text' v Hv. eexists. split.
  - apply (step_NetMessage_open h s text'
             (with_console (SyntaxError "Unexpected token") w)); done.
  - by rewrite (onmessage_body_ok _ _ _ Hv).
Qed.


(** C4.  The close event of a socket, at time [T], adds one timer due at
    [T + 1000] that calls [connectWebSocket], and creates no socket
    itself.  Whatever happens next, while the clock is below [T + 1000]
    that timer is still pending and the scheduler cannot run it; when it
    runs, the attempt is made in that turn.  In a run that mounts the
    element once, no socket at all is created before [T + 1000]. *)
Theorem reconnect_after_fixed_delay
    (l : Location) (evs : list Event) (h : nat) (w w1 : World) :
  run evs (init l) = Some w →
  step (NetClose h) w = Some w1 →
  timers w !! next_timer w = None
  ∧ timers w1 = <[next_timer w := reconnection (now w)]> (timers w)
  ∧ due (reconnection (now w)) = now w + 1000
  ∧ length (sockets w1) = length (sockets w)
  ∧ (∀ evs' w2, run evs' w1 = Some w2 → now w2 < now w + 1000 →
       timers w2 !! next_timer w = Some (reconnection (now w))
       ∧ step (Fire (next_timer w)) w2 = None)
  ∧ (∀ evs' w2 w3, run evs' w1 = Some w2 →
       step (Fire (next_timer w)) w2 = Some w3 →
       now w + 1000 ≤ now w2
       ∧ sockets w3 = sockets w2 ++ [fresh_socket (wsUrl_of (location w2)) (now w2)])
  ∧ (∀ evs' w2, (mounts (evs ++ evs') ≤ 1)%nat → run evs' w1 = Some w2 →
       now w2 < now w + 1000 → length (sockets w2) = length (sockets w)).
Proof.
  intros Hrun Hstep.
  pose proof (reachable_wired _ _ _ Hrun) as Hw.
  pose proof (wired_step _ _ _ Hw Hstep) as Hw1.
  pose proof Hstep as Hstep'.
  apply step_NetClose in Hstep as (s & Hs & Hl & ->); [|done].
  pose proof (awaits_after_close h w) as Ha.
  split; [by apply wired_fresh|]. split; [done|]. split; [done|].
  split; [simpl; apply length_alter|].
  split; [|split].
  - intros evs' w2 Hrun' Hlt.
    destruct (awaits_run _ _ _ _ _ Hw1 Ha Hrun') as (_ & _ & Hpend).
    assert (timers w2 !! next_timer w = Some (reconnection (now w))) as Ht
      by (apply Hpend; unfold RECONNECT_DELAY; lia).
    split; [done|]. unfold step. rewrite Ht. simpl.
    case_decide as Hd; [|done]. unfold RECONNECT_DELAY in Hd. lia.
  - intros evs' w2 w3 Hrun' Hfire.
    pose proof (wired_run _ _ _ Hw1 Hrun') as Hw2.
    destruct (awaits_run _ _ _ _ _ Hw1 Ha Hrun') as (_ & Hsame & _).
    apply step_Fire in Hfire as (tm & Htm & Hdue & ->); [|done].
    rewrite (Hsame _ Htm) in Hdue. simpl in Hdue.
    split; [unfold RECONNECT_DELAY in Hdue; lia|done].
  - intros evs' w2 Hm Hrun' Hlt.
    rewrite mounts_app in Hm.
    assert (mounts evs ≠ 0%nat) as Hne.
    { intros H0.
      destruct (unmounted_run _ _ _ (unmounted_init l) H0 Hrun) as (_ & He & _).
      by rewrite He in Hs. }
    assert (single_chain (after_close h w)) as Hc.
    { eapply (mount_once_chain (evs ++ [NetClose h]));
        [apply (wired_init l)|apply (unmounted_init l)| |].
      - rewrite mounts_app. simpl. lia.
      - rewrite run_app, Hrun. exact (run_cons _ [] _ _ Hstep'). }
    rewrite (quiet_run _ _ evs' _ w2 Hw1 Hc Ha);
      [simpl; apply length_alter|lia|done|unfold RECONNECT_DELAY; lia].
Qed.

(** C5.  Whenever a socket that is not CLOSED closes, in any reachable
    world and after any number of earlier failures, the reconnection
    follows one delay later; and if the endpoint keeps refusing, after
    [n] further failures attempt number [n + 1] is in flight.  There is
    no count of attempts anywhere in the state. *)
Theorem every_close_is_retried
    (l : Location) (evs : list Event) (w : World) (h : nat) (s : WebSocket) (n : nat) :
  run evs (init l) = Some w →
  sockets w !! h = Some s →
  readyState s ≠ CLOSED →
  ∃ w', run (keeps_failing h (length (sockets w)) (next_timer w) n) w = Some w'
        ∧ length (sockets w') = (length (sockets w) + S n)%nat
        ∧ ws (this w') = Some (length (sockets w) + n)%nat
        ∧ now w' = now w + 1000 * N.of_nat (S n)
        ∧ sockets w' !! (length (sockets w) + n)%nat
          = Some (fresh_socket (wsUrl_of (location w)) (now w'))
        ∧ timers w' = timers w.
Proof.
  intros Hrun Hs Hl.
  destruct (keeps_failing_run n w h s (reachable_wired _ _ _ Hrun) Hs Hl)
    as (w' & H1 & _ & H2 & H3 & H4 & H5 & H6).
  exists w'. repeat (split; [done|]). done.
Qed.

(** C6.  The URL of a connection attempt is [wss://<host>/__ws__] when
    the page's protocol is [https:] and [ws://<host>/__ws__] otherwise,
    with protocol and host read from the location of the world in which
    the attempt is made: after a change of location between two attempts
    the second socket is opened on the new page's endpoint. *)
Theorem endpoint_mirrors_page_scheme (w : World) (l2 : Location) :
  let l1 := location w in
  let n := length (sockets w) in
  wsUrl_of l1 =
    (if String.eqb (protocol l1) "https:" then "wss://" else "ws://")
    +:+ host l1 +:+ "/__ws__"
  ∧ sockets (world_of (connectWebSocket w)) = sockets w ++ [fresh_socket (wsUrl_of l1) (now w)]
  ∧ step Mount w = Some (connected w)
  ∧ url <$> sockets (connected w) !! n = Some (wsUrl_of l1)
  ∧ ∃ w', run (Navigate l2 :: retry n (next_timer w)) (connected w) = Some w'
          ∧ url <$> sockets w' !! n = Some (wsUrl_of l1)
          ∧ url <$> sockets w' !! S n = Some (wsUrl_of l2).
Proof.
  intros l1 n. split.
  { unfold wsUrl_of, wsProtocol_of.
    by destruct (String.eqb (protocol l1) "https:"). }
  split; [by rewrite connectWebSocket_eq|].
  split; [apply step_Mount|].
  assert (sockets (connected w) !! n
          = Some (fresh_socket (wsUrl_of l1) (now w))) as Hn
    by (simpl; by rewrite list_lookup_middle).
  split; [by rewrite Hn|].
  exists (connected (with_timers (delete (next_timer w)) (S (next_timer w))
            (with_now (now w + RECONNECT_DELAY)
               (after_close n (with_location l2 (connected w)))))).
  split; [|split].
  - rewrite (run_cons (Navigate l2) _ _ _ eq_refl). unfold retry.
    assert (step (NetClose n) (with_location l2 (connected w))
            = Some (after_close n (with_location l2 (connected w)))) as Hc.
    { unfold step. simpl sockets. by rewrite list_lookup_middle. }
    rewrite (run_cons _ _ _ _ Hc).
    rewrite (run_cons (Elapse RECONNECT_DELAY) _ _ _ eq_refl).
    erewrite run_cons; [reflexivity|].
    apply (step_Fire_due _ (reconnection (now w))); [|done|simpl; lia].
    simpl. apply lookup_insert_eq.
  - simpl. rewrite lookup_app_l.
    + rewrite list_lookup_alter_eq, list_lookup_middle by done. done.
    + rewrite length_alter, length_app. simpl. lia.
  - simpl.
    replace (S n) with (length (alter (set_readyState CLOSED) n
                                  (sockets w ++ [fresh_socket (wsUrl_of l1) (now w)])))
      by (rewrite length_alter, length_app; simpl; lia).
    by rewrite list_lookup_middle.
Qed.

(** C7.  A frame whose text decodes to [v], delivered on an open socket
    of a reachable world, dispatches exactly one [MesopEvent]: its name is
    the current value of [this.triggerEvent], its detail is
    [{action: v}].  Nothing is reported on the console. *)
Theorem well_formed_frame_dispatches_once
    (l : Location) (evs : list Event) (w w' : World) (h : nat) (text : string) (v : JSON) :
  run evs (init l) = Some w →
  step (NetMessage h text) w = Some w' →
  JSON_parse_text text = Some v →
  dispatched w' =
    dispatched w ++ [{| ev_name := triggerEvent (this w); ev_action := v |}]
  ∧ console w' = console w
  ∧ sockets w' = sockets w
  ∧ this w' = this w.
Proof.
  intros Hrun Hstep Hv.
  apply step_NetMessage in Hstep as (s & _ & _ & ->);
    [|by eapply reachable_wired].
  by rewrite (onmessage_body_ok _ _ _ Hv).
Qed.

(** C8.  [connectedCallback] and [connectWebSocket] complete normally in
    every world: the URL they build passes the checks of the WebSocket
    constructor and [this.ws] is set before its handlers are assigned.
    The socket is left CONNECTING; a refused connection shows up later as
    the socket's close event, which runs the same handler, with the same
    effect, as the close of an established connection. *)
Theorem open_never_throws (w : World) :
  let n := length (sockets w) in
  let opened := with_sockets (alter (set_readyState OPEN) n) (connected w) in
  connectedCallback w = Normal tt (connected w)
  ∧ connectWebSocket w = Normal tt (connected w)
  ∧ step Mount w = Some (connected w)
  ∧ console (connected w) = console w
  ∧ sockets (connected w) !! n
    = Some (fresh_socket (wsUrl_of (location w)) (now w))
  ∧ step (NetClose n) (connected w) = Some (after_close n (connected w))
  ∧ step (NetOpen n) (connected w) = Some opened
  ∧ step (NetClose n) opened = Some (after_close n opened).
Proof.
  intros n opened.
  assert (sockets (connected w) !! n
          = Some (fresh_socket (wsUrl_of (location w)) (now w))) as Hn
    by (simpl; by rewrite list_lookup_middle).
  split; [apply connectedCallback_eq|].
  split; [apply connectWebSocket_eq|].
  split; [apply step_Mount|].
  split; [done|]. split; [done|].
  split; [|split].
  - unfold step. by rewrite Hn.
  - unfold step. by rewrite Hn.
  - unfold step, opened. simpl sockets.
    rewrite list_lookup_alter_eq. fold n.
    change (sockets w ++ [fresh_socket (wsUrl_of (location w)) (now w)])
      with (sockets (connected w)).
    by rewrite Hn.
Qed.

(** C9.  Before the element has ever been mounted [this.ws] is still the
    [null] of the constructor, and [disconnectedCallback] completes
    normally without changing anything: no socket is closed, no timer is
    set, nothing is reported. *)
Theorem teardown_before_mount_is_noop
    (l : Location) (evs : list Event) (w : World) :
  run evs (init l) = Some w →
  mounts evs = 0%nat →
  ws (this w) = None
  ∧ disconnectedCallback w = Normal tt w
  ∧ step Unmount w = Some w.
Proof.
  intros Hrun Hm.
  destruct (unmounted_run _ _ _ (unmounted_init l) Hm Hrun) as (Hws & _ & _).
  split; [done|].
  split; [by rewrite disconnectedCallback_eq, Hws|by rewrite step_Unmount, Hws].
Qed.

(** C10.  [connectWebSocket] changes the component in its [ws] field only,
    and no turn of the event loop other than a property write by the
    framework changes [triggerEvent] or [action]: not a mount or an
    unmount, not a message, a close event or a timer, whatever closure
    they run. *)
Theorem properties_are_never_written (e : Event) (w w' : World) :
  step e w = Some w' →
  is_property_write e = false →
  triggerEvent (this w') = triggerEvent (this w)
  ∧ action (this w') = action (this w)
  ∧ this (world_of (connectWebSocket w))
    = set_ws (Some (length (sockets w))) (this w).
Proof.
  intros H Hp.
  assert (this (world_of (connectWebSocket w))
          = set_ws (Some (length (sockets w))) (this w)) as Hc
    by (by rewrite connectWebSocket_eq).
  rewrite Hc. unfold step in H.
  destruct e; try done.
  - injection H as <-. by rewrite connectedCallback_eq.
  - injection H as <-. rewrite disconnectedCallback_eq.
    by destruct (ws (this w)).
  - destruct (sockets w !! h) as [s|]; simpl in H; [|done].
    case_decide; [|done]. by injection H as <-.
  - destruct (sockets w !! h) as [s|]; simpl in H; [|done].
    case_decide; [|done]. injection H as <-.
    destruct (onmessage s) as [c|]; simpl; [|done].
    destruct (call_properties c text w) as [-> ->]. done.
  - destruct (sockets w !! h) as [s|]; simpl in H; [|done].
    case_decide; [done|]. injection H as <-.
    destruct (onclose s) as [c|]; simpl; [|done].
    destruct (call_properties c EmptyString
                (with_sockets (alter (set_readyState CLOSED) h) w)) as [-> ->].
    done.
  - by injection H as <-.
  - destruct (timers w !! id) as [t|]; simpl in H; [|done].
    case_decide; [|done]. injection H as <-.
    destruct (call_properties (callback t) EmptyString
                (with_timers (delete id) (next_timer w) w)) as [-> ->].
    done.
  - by injection H as <-.
Qed.

End Theory.

(** * Whole runs *)

Section Runs.
Context {json : JSON_API}.

(** ** What a run dispatches and reports *)

Lemma forwarded_cons (name : option string) (e : Event) (evs : list Event) :
  forwarded name (e :: evs)
  = forwarded name [e] ++ forwarded (name_after name e) evs.
Proof.
  destruct e; simpl; try done.
  by destruct (JSON_parse_text text).
Qed.

Lemma step_name (e : Event) (w w' : World) :
  wired w → step e w = Some w' →
  triggerEvent (this w') = name_after (triggerEvent (this w)) e.
Proof.
  intros Hw H. destruct e; simpl.
  - rewrite step_Mount in H. by injection H as <-.
  - rewrite step_Unmount in H. injection H as <-. by destruct (ws (this w)).
  - by apply step_NetOpen in H as (s & _ & _ & ->).
  - apply step_NetMessage in H as (s & _ & _ & ->); [|done].
    by destruct (report_onmessage_frame text w) as (-> & _).
  - by apply step_NetClose in H as (s & _ & _ & ->).
  - by injection H as <-.
  - by apply step_Fire in H as (t & _ & _ & ->).
  - by injection H as <-.
  - by injection H as <-.
  - by injection H as <-.
Qed.

Lemma step_outputs (e : Event) (w w' : World) :
  wired w → step e w = Some w' →
  dispatched w' = dispatched w ++ forwarded (triggerEvent (this w)) [e]
  ∧ console w' = console w
                 ++ replicate (malformed [e]) (SyntaxError "Unexpected token").
Proof.
  intros Hw H. destruct e; simpl.
  - rewrite step_Mount in H. injection H as <-. simpl. by rewrite !app_nil_r.
  - rewrite step_Unmount in H. injection H as <-.
    destruct (ws (this w)); simpl; by rewrite !app_nil_r.
  - apply step_NetOpen in H as (s & _ & _ & ->). simpl. by rewrite !app_nil_r.
  - apply step_NetMessage in H as (s & _ & _ & ->); [|done].
    destruct (JSON_parse_text text) as [v|] eqn:Hv.
    + rewrite (onmessage_body_ok _ _ _ Hv). simpl. by rewrite app_nil_r.
    + rewrite (onmessage_body_bad _ _ Hv). simpl. by rewrite app_nil_r.
  - apply step_NetClose in H as (s & _ & _ & ->); [|done]. simpl.
    by rewrite !app_nil_r.
  - injection H as <-. simpl. by rewrite !app_nil_r.
  - apply step_Fire in H as (t & _ & _ & ->); [|done]. simpl.
    by rewrite !app_nil_r.
  - injection H as <-. simpl. by rewrite !app_nil_r.
  - injection H as <-. simpl. by rewrite !app_nil_r.
  - injection H as <-. simpl. by rewrite !app_nil_r.
Qed.

Lemma malformed_cons (e : Event) (evs : list Event) :
  malformed (e :: evs) = (malformed [e] + malformed evs)%nat.
Proof.
  destruct e; simpl; try done.
  by destruct (JSON_parse_text text).
Qed.

Lemma run_outputs (evs : list Event) (w w' : World) :
  wired w → run evs w = Some w' →
  dispatched w' = dispatched w ++ forwarded (triggerEvent (this w)) evs
  ∧ console w' = console w
                 ++ replicate (malformed evs) (SyntaxError "Unexpected token").
Proof.
  revert w. induction evs as [|e evs IH]; intros w Hw H.
  - injection H as <-. simpl. by rewrite !app_nil_r.
  - simpl in H. destruct (step e w) as [w1|] eqn:He; simpl in H; [|done].
    destruct (step_outputs e w w1 Hw He) as [Hd Hc].
    destruct (IH w1 (wired_step _ _ _ Hw He) H) as [Hd' Hc'].
    rewrite forwarded_cons, malformed_cons, replicate_add, !app_assoc.
    rewrite <- Hd, <- Hc, <- (step_name e w w1 Hw He). done.
Qed.

(** X1.  The events dispatched over a whole run are the frames that
    decode, one event each, in the order of arrival and under the event
    name current at arrival; the exceptions reported over the run are one
    [SyntaxError] per frame that does not decode, and nothing else: no
    callback of the component throws for any other reason. *)
Theorem run_forwards_frames_in_order
    (l : Location) (evs : list Event) (w : World) :
  run evs (init l) = Some w →
  dispatched w = forwarded None evs
  ∧ console w = replicate (malformed evs) (SyntaxError "Unexpected token").
Proof.
  intros H. exact (run_outputs evs (init l) w (wired_init l) H).
Qed.

(** ** Counting chains *)

Lemma live_alter_same (f : WebSocket → WebSocket) (h : nat) (l : list WebSocket) :
  (∀ s, l !! h = Some s →
        (readyState (f s) ≠ CLOSED ↔ readyState s ≠ CLOSED)) →
  length (filter (λ s, readyState s ≠ CLOSED) (alter f h l))
  = length (filter (λ s, readyState s ≠ CLOSED) l).
Proof.
  revert h. induction l as [|x l IH]; intros h Hf; [done|].
  destruct h as [|h].
  - change (alter f 0%nat (x :: l)) with (f x :: l).
    rewrite !filter_cons. pose proof (Hf x eq_refl).
    repeat case_decide; simpl; tauto.
  - change (alter f (S h) (x :: l)) with (x :: alter f h l).
    rewrite !filter_cons. case_decide; simpl; by rewrite (IH h Hf).
Qed.

Lemma live_alter_closed (h : nat) (s : WebSocket) (l : list WebSocket) :
  l !! h = Some s → readyState s ≠ CLOSED →
  S (length (filter (λ s, readyState s ≠ CLOSED)
               (alter (set_readyState CLOSED) h l)))
  = length (filter (λ s, readyState s ≠ CLOSED) l).
Proof.
  revert h. induction l as [|x l IH]; intros h Hs Hl; [done|].
  destruct h as [|h].
  - injection Hs as ->.
    change (alter (set_readyState CLOSED) 0%nat (s :: l))
      with (set_readyState CLOSED s :: l).
    rewrite !filter_cons. repeat case_decide; simpl in *; done.
  - change (alter (set_readyState CLOSED) (S h) (x :: l))
      with (x :: alter (set_readyState CLOSED) h l).
    rewrite !filter_cons. case_decide; simpl; by rewrite <- (IH h Hs Hl).
Qed.

Lemma live_count_connected (w : World) :
  live_count (connected w) = S (live_count w).
Proof.
  unfold live_count. simpl.
  rewrite stdpp.list_basics.list.filter_app, length_app. simpl. lia.
Qed.

Lemma close_socket_live (s : WebSocket) :
  readyState (close_socket s) ≠ CLOSED ↔ readyState s ≠ CLOSED.
Proof.
  unfold close_socket. destruct (readyState s) eqn:H; simpl; by rewrite ?H.
Qed.

Lemma step_chains (e : Event) (w w' : World) :
  wired w → step e w = Some w' →
  (live_count w' + size (timers w')
   = live_count w + size (timers w) + mounts [e])%nat.
Proof.
  intros Hw H. destruct e; simpl.
  - rewrite step_Mount in H. injection H as <-.
    rewrite live_count_connected. simpl. lia.
  - rewrite step_Unmount in H. injection H as <-.
    destruct (ws (this w)); [|lia]. unfold live_count. simpl.
    rewrite live_alter_same; [lia|]. intros s _. apply close_socket_live.
  - apply step_NetOpen in H as (s & Hs & Hr & ->). unfold live_count. simpl.
    rewrite live_alter_same; [lia|].
    intros x Hx. rewrite Hs in Hx. injection Hx as <-. simpl. by rewrite Hr.
  - apply step_NetMessage in H as (s & _ & _ & ->); [|done].
    destruct (report_onmessage_frame text w) as (_ & Hs & Ht & _).
    unfold live_count. rewrite Hs, Ht. lia.
  - apply step_NetClose in H as (s & Hs & Hl & ->); [|done].
    unfold live_count. simpl.
    rewrite map_size_insert_None by (by apply wired_fresh).
    rewrite <- (live_alter_closed h s (sockets w) Hs Hl). lia.
  - injection H as <-. unfold live_count. simpl. lia.
  - apply step_Fire in H as (t & Ht & _ & ->); [|done].
    rewrite live_count_connected. unfold live_count. simpl.
    rewrite map_size_delete_Some by eauto.
    assert (size (timers w) ≠ 0%nat); [|lia].
    apply map_size_non_empty_iff. intros He. by rewrite He, lookup_empty in Ht.
  - injection H as <-. unfold live_count. simpl. lia.
  - injection H as <-. unfold live_count. simpl. lia.
  - injection H as <-. unfold live_count. simpl. lia.
Qed.

Lemma run_chains (evs : list Event) (w w' : World) :
  wired w → run evs w = Some w' →
  (live_count w' + size (timers w')
   = live_count w + size (timers w) + mounts evs)%nat.
Proof.
  revert w. induction evs as [|e evs IH]; intros w Hw H.
  - injection H as <-. simpl. lia.
  - simpl in H. destruct (step e w) as [w1|] eqn:He; simpl in H; [|done].
    rewrite (IH w1 (wired_step _ _ _ Hw He) H).
    rewrite (step_chains e w w1 Hw He).
    change (e :: evs) with ([e] ++ evs). rewrite mounts_app. lia.
Qed.

(** X2.  Every mount starts one chain and nothing ever ends one: in every
    reachable world the sockets that are not CLOSED and the pending
    reconnection timers together are as many as the element was mounted.
    Teardown does not lower the number; without a mount there is no
    socket and no timer. *)
Theorem chains_equal_mounts (l : Location) (evs : list Event) (w : World) :
  run evs (init l) = Some w →
  (live_count w + size (timers w) = mounts evs)%nat.
Proof.
  intros H. rewrite (run_chains evs (init l) w (wired_init l) H).
  unfold live_count. simpl. rewrite map_size_empty. lia.
Qed.

(** ** After teardown *)

Lemma chain_unmount_no_delivery (w w1 : World) :
  single_chain w → step Unmount w = Some w1 → no_delivery w1.
Proof.
  intros [Hc _] H. rewrite step_Unmount in H. injection H as <-.
  destruct (ws (this w)) as [h0|] eqn:Hws.
  - intros h s' Hs'. simpl in Hs'.
    apply lookup_alter_inv in Hs' as (x & Hx & ->).
    destruct (decide (readyState x = CLOSED)) as [Hcl|Hl].
    + right. case_decide; [|done]. unfold close_socket. by rewrite Hcl.
    + destruct (Hc h x Hx Hl) as [Heq _].
      rewrite ?Hws in Heq. injection Heq as ->.
      rewrite decide_True by done. unfold close_socket.
      destruct (readyState x) eqn:Hr; simpl; rewrite ?Hr; auto.
  - intros h s Hs. right.
    destruct (decide (readyState s = CLOSED)) as [|Hl]; [done|].
    destruct (Hc h s Hs Hl) as [Heq _]. rewrite ?Hws in Heq. done.
Qed.

Lemma no_delivery_step (e : Event) (w w' : World) :
  wired w → no_delivery w → is_attempt e = false → step e w = Some w' →
  no_delivery w' ∧ dispatched w' = dispatched w ∧ console w' = console w
  ∧ length (sockets w') = length (sockets w).
Proof.
  intros Hw Hn Ha H. destruct e; try done.
  - rewrite step_Unmount in H. injection H as <-.
    destruct (ws (this w)) as [h0|]; [|done].
    split; [|by simpl; rewrite length_alter].
    intros h s' Hs'. simpl in Hs'.
    apply lookup_alter_inv in Hs' as (x & Hx & ->).
    destruct (Hn h x Hx) as [Hr|Hr]; case_decide; auto;
      unfold close_socket; rewrite Hr; auto.
  - apply step_NetOpen in H as (s & Hs & Hr & _).
    destruct (Hn h s Hs) as [Hr'|Hr']; congruence.
  - apply step_NetMessage in H as (s & Hs & Hr & _); [|done].
    destruct (Hn h s Hs) as [Hr'|Hr']; congruence.
  - apply step_NetClose in H as (s & Hs & Hr & ->); [|done].
    split; [|by simpl; rewrite length_alter].
    intros j s' Hs'. simpl in Hs'.
    apply lookup_alter_inv in Hs' as (x & Hx & ->).
    case_decide; [by right|by apply (Hn j x)].
  - by injection H as <-.
  - by injection H as <-.
  - by injection H as <-.
  - by injection H as <-.
Qed.

Lemma no_delivery_run (evs : list Event) (w w' : World) :
  wired w → no_delivery w → Forall (λ e, is_attempt e = false) evs →
  run evs w = Some w' →
  no_delivery w' ∧ dispatched w' = dispatched w ∧ console w' = console w
  ∧ length (sockets w') = length (sockets w).
Proof.
  revert w. induction evs as [|e evs IH]; intros w Hw Hn Ha H.
  - by injection H as <-.
  - simpl in H. destruct (step e w) as [w1|] eqn:He; simpl in H; [|done].
    inversion Ha as [|? ? Ha1 Ha2]; subst.
    destruct (no_delivery_step e w w1 Hw Hn Ha1 He) as (Hn1 & Hd1 & Hc1 & Hl1).
    destruct (IH w1 (wired_step _ _ _ Hw He) Hn1 Ha2 H) as (Hn2 & Hd2 & Hc2 & Hl2).
    split; [done|]. split; [congruence|]. split; congruence.
Qed.

(** X3.  What teardown does achieve.  When the element was mounted once,
    from the moment [disconnectedCallback] returns until a reconnection
    timer runs no frame can be delivered on any socket, nothing is
    dispatched or reported, and no socket is created, whatever the
    network and the page do in between. *)
Theorem teardown_silences_until_a_timer_runs
    (l : Location) (evs evs' : list Event) (w w1 w2 : World) :
  run evs (init l) = Some w →
  (mounts evs ≤ 1)%nat →
  step Unmount w = Some w1 →
  Forall (λ e, is_attempt e = false) evs' →
  run evs' w1 = Some w2 →
  dispatched w2 = dispatched w
  ∧ console w2 = console w
  ∧ length (sockets w2) = length (sockets w)
  ∧ ∀ h text, step (NetMessage h text) w2 = None.
Proof.
  intros Hrun Hm Hu Ha Hrun'.
  pose proof (reachable_wired _ _ _ Hrun) as Hw.
  pose proof (mount_once_chain _ _ _ (wired_init l) (unmounted_init l) Hm Hrun)
    as Hc.
  pose proof (chain_unmount_no_delivery w w1 Hc Hu) as Hn1.
  destruct (no_delivery_run evs' w1 w2 (wired_step _ _ _ Hw Hu) Hn1 Ha Hrun')
    as (Hn2 & Hd & Hco & Hl).
  assert (dispatched w1 = dispatched w ∧ console w1 = console w
          ∧ length (sockets w1) = length (sockets w)) as (Hd1 & Hc1 & Hl1).
  { rewrite step_Unmount in Hu. injection Hu as <-.
    destruct (ws (this w)); [|done]. simpl. by rewrite length_alter. }
  split; [congruence|]. split; [congruence|]. split; [congruence|].
  intros h text. unfold step.
  destruct (sockets w2 !! h) as [s|] eqn:Hs; [|done]. simpl.
  case_decide as Ho; [|done].
  destruct (Hn2 h s Hs); congruence.
Qed.

(** X4.  [disconnectedCallback] completes normally in every world, and
    calling it again changes nothing: a second teardown in a row leaves
    the world of the first. *)
Theorem teardown_is_idempotent (w : World) :
  run [Unmount; Unmount] w = run [Unmount] w
  ∧ ∃ w1, disconnectedCallback w = Normal tt w1
          ∧ disconnectedCallback w1 = Normal tt w1.
Proof.
  assert (∃ w1, disconnectedCallback w = Normal tt w1
                ∧ disconnectedCallback w1 = Normal tt w1) as (w1 & H1 & H2).
  { rewrite disconnectedCallback_eq. eexists. split; [done|].
    rewrite disconnectedCallback_eq.
    destruct (ws (this w)) as [h|] eqn:Hws; simpl; rewrite Hws; [|done].
    unfold with_sockets. simpl. do 2 f_equal.
    rewrite list_alter_alter_eq. apply list_alter_ext; [|done].
    intros s _. unfold compose, close_socket.
    destruct (readyState s) eqn:Hr; simpl; by rewrite ?Hr. }
  split; [|by exists w1].
  assert (step Unmount w = Some w1) as Hs1 by (unfold step; by rewrite H1).
  assert (step Unmount w1 = Some w1) as Hs2 by (unfold step; by rewrite H2).
  rewrite (run_cons _ [Unmount] _ _ Hs1).
  by rewrite (run_cons _ [] _ _ Hs2), (run_cons _ [] _ _ Hs1).
Qed.

(** ** Which socket the component holds *)

Lemma holds_newest_connected (w : World) : holds_newest (connected w).
Proof.
  unfold holds_newest. simpl.
  destruct (sockets w ++ [fresh_socket (wsUrl_of (location w)) (now w)])
    as [|x l] eqn:Hl.
  - by destruct (sockets w).
  - f_equal. rewrite <- Hl, length_app. simpl. lia.
Qed.

Lemma holds_newest_alter (f : WebSocket → WebSocket) (h : nat) (w : World) :
  holds_newest w → holds_newest (with_sockets (alter f h) w).
Proof.
  unfold holds_newest. simpl. intros ->.
  rewrite length_alter. destruct (sockets w) as [|x l]; [done|].
  by destruct h.
Qed.

Lemma holds_newest_step (e : Event) (w w' : World) :
  wired w → holds_newest w → step e w = Some w' → holds_newest w'.
Proof.
  intros Hw Hn H. destruct e.
  - rewrite step_Mount in H. injection H as <-. apply holds_newest_connected.
  - rewrite step_Unmount in H. injection H as <-.
    destruct (ws (this w)) eqn:Hws; [|done]. by apply holds_newest_alter.
  - apply step_NetOpen in H as (s & _ & _ & ->). by apply holds_newest_alter.
  - apply step_NetMessage in H as (s & _ & _ & ->); [|done].
    destruct (report_onmessage_frame text w) as (Ht & Hs & _).
    unfold holds_newest. by rewrite Ht, Hs.
  - apply step_NetClose in H as (s & _ & _ & ->); [|done].
    by apply (holds_newest_alter (set_readyState CLOSED) h w).
  - by injection H as <-.
  - apply step_Fire in H as (t & _ & _ & ->); [|done].
    apply holds_newest_connected.
  - by injection H as <-.
  - by injection H as <-.
  - by injection H as <-.
Qed.

Lemma holds_newest_run (evs : list Event) (w w' : World) :
  wired w → holds_newest w → run evs w = Some w' → holds_newest w'.
Proof.
  revert w. induction evs as [|e evs IH]; intros w Hw Hn H.
  - by injection H as <-.
  - simpl in H. destruct (step e w) as [w1|] eqn:He; simpl in H; [|done].
    apply (IH w1); [by eapply wired_step| |done].
    by apply (holds_newest_step e w w1).
Qed.

(** X5.  In every reachable world [this.ws] is the socket created last
    ([null] exactly while no socket was created), so teardown acts on that
    socket alone: every socket created earlier is left as it is, open
    ones included. *)
Theorem teardown_closes_newest_only
    (l : Location) (evs : list Event) (w w' : World) :
  run evs (init l) = Some w →
  step Unmount w = Some w' →
  holds_newest w
  ∧ length (sockets w') = length (sockets w)
  ∧ ∀ h, (S h < length (sockets w))%nat → sockets w' !! h = sockets w !! h.
Proof.
  intros Hrun Hu.
  assert (holds_newest w) as Hn.
  { apply (holds_newest_run evs (init l) w); [apply wired_init|done|done]. }
  split; [done|].
  rewrite step_Unmount in Hu. injection Hu as <-.
  unfold holds_newest in Hn. rewrite Hn.
  destruct (sockets w) as [|x r] eqn:Hs; [by rewrite Hs|].
  simpl with_sockets. simpl sockets. rewrite Hs.
  split; [apply length_alter|].
  intros h Hh. apply list_lookup_alter_ne. simpl in *. lia.
Qed.

(** ** The timer queue and the socket store *)

Lemma timers_bounded_step (e : Event) (w w' : World) :
  wired w → timers_bounded w → step e w = Some w' → timers_bounded w'.
Proof.
  intros Hw Hb H. destruct e.
  - rewrite step_Mount in H. by injection H as <-.
  - rewrite step_Unmount in H. injection H as <-. by destruct (ws (this w)).
  - by apply step_NetOpen in H as (s & _ & _ & ->).
  - apply step_NetMessage in H as (s & _ & _ & ->); [|done].
    destruct (report_onmessage_frame text w) as (_ & _ & Ht & _ & Hn & _).
    unfold timers_bounded. by rewrite Ht, Hn.
  - apply step_NetClose in H as (s & _ & _ & ->); [|done].
    intros id t Hid. simpl in Hid |- *.
    apply lookup_insert_Some in Hid as [[_ <-]|[_ Hid]]; [done|].
    by apply (Hb id).
  - injection H as <-. intros id t Hid. simpl in *.
    destruct (Hb id t Hid). split; [done|lia].
  - apply step_Fire in H as (t & _ & _ & ->); [|done].
    intros j t' Hj. simpl in Hj |- *.
    apply lookup_delete_Some in Hj as [_ Hj]. by apply (Hb j).
  - by injection H as <-.
  - by injection H as <-.
  - by injection H as <-.
Qed.

Lemma timers_bounded_run (evs : list Event) (w w' : World) :
  wired w → timers_bounded w → run evs w = Some w' → timers_bounded w'.
Proof.
  revert w. induction evs as [|e evs IH]; intros w Hw Hn H.
  - by injection H as <-.
  - simpl in H. destruct (step e w) as [w1|] eqn:He; simpl in H; [|done].
    apply (IH w1); [by eapply wired_step| |done].
    by apply (timers_bounded_step e w w1).
Qed.

(** X6.  The timer queue of a reachable world holds reconnections only,
    each due no later than 1000 ms from now: the delay never grows, and a
    pending reconnection can run once 1000 ms have passed. *)
Theorem pending_timers_are_due_within_the_delay
    (l : Location) (evs : list Event) (w : World) (id : nat) (t : Timer) :
  run evs (init l) = Some w →
  timers w !! id = Some t →
  callback t = Reconnect
  ∧ due t ≤ now w + 1000
  ∧ ∃ w', run [Elapse 1000; Fire id] w = Some w'
          ∧ length (sockets w') = S (length (sockets w)).
Proof.
  intros Hrun Ht.
  assert (timers_bounded w) as Hb.
  { apply (timers_bounded_run evs (init l) w); [apply wired_init| |done].
    intros j t' Hj. simpl in Hj. by rewrite lookup_empty in Hj. }
  destruct (Hb id t Ht) as [Hc Hd]. split; [done|]. split; [done|].
  eexists. split.
  - rewrite (run_cons (Elapse 1000) _ _ _ eq_refl).
    erewrite run_cons; [reflexivity|].
    apply (step_Fire_due id t); [done|done|simpl; unfold RECONNECT_DELAY in Hd; lia].
  - simpl. rewrite length_app. simpl. lia.
Qed.

Lemma on_endpoint_step (e : Event) (w w' : World) :
  wired w → on_endpoint w → step e w = Some w' → on_endpoint w'.
Proof.
  assert (∀ w0, on_endpoint w0 → on_endpoint (connected w0)) as Hconn.
  { intros w0 Ho h s Hs. simpl in Hs.
    apply lookup_snoc_inv in Hs as [Hs|[_ ->]]; [by apply (Ho h)|].
    by exists (location w0). }
  assert (∀ f h w0, (∀ s, url (f s) = url s) → on_endpoint w0 →
                    on_endpoint (with_sockets (alter f h) w0)) as Halt.
  { intros f h w0 Hf Ho j s Hs. simpl in Hs.
    apply lookup_alter_inv in Hs as (x & Hx & ->).
    destruct (Ho j x Hx) as [l' Hl]. exists l'.
    case_decide; [by rewrite Hf|done]. }
  intros Hw Ho H. destruct e.
  - rewrite step_Mount in H. injection H as <-. by apply Hconn.
  - rewrite step_Unmount in H. injection H as <-.
    destruct (ws (this w)); [|done]. apply Halt; [|done].
    intros s. unfold close_socket. by destruct (readyState s).
  - apply step_NetOpen in H as (s & _ & _ & ->). by apply Halt.
  - apply step_NetMessage in H as (s & _ & _ & ->); [|done].
    destruct (report_onmessage_frame text w) as (_ & Hs & _).
    unfold on_endpoint. by rewrite Hs.
  - apply step_NetClose in H as (s & _ & _ & ->); [|done].
    by apply (Halt (set_readyState CLOSED) h w).
  - by injection H as <-.
  - apply step_Fire in H as (t & _ & _ & ->); [|done]. by apply Hconn.
  - by injection H as <-.
  - by injection H as <-.
  - by injection H as <-.
Qed.

Lemma on_endpoint_run (evs : list Event) (w w' : World) :
  wired w → on_endpoint w → run evs w = Some w' → on_endpoint w'.
Proof.
  revert w. induction evs as [|e evs IH]; intros w Hw Hn H.
  - by injection H as <-.
  - simpl in H. destruct (step e w) as [w1|] eqn:He; simpl in H; [|done].
    apply (IH w1); [by eapply wired_step| |done].
    by apply (on_endpoint_step e w w1).
Qed.

(** X7.  Every socket the component ever created, in any reachable world,
    carries both handlers, so no frame and no close event goes unnoticed,
    and was opened on the [/__ws__] endpoint of a page location, a URL the
    WebSocket constructor accepts. *)
Theorem every_socket_is_wired_to_the_endpoint
    (l : Location) (evs : list Event) (w : World) (h : nat) (s : WebSocket) :
  run evs (init l) = Some w →
  sockets w !! h = Some s →
  onmessage s = Some OnMessage
  ∧ onclose s = Some OnClose
  ∧ ws_url_ok (url s) = true
  ∧ ∃ l', url s = wsUrl_of l'.
Proof.
  intros Hrun Hs.
  destruct (reachable_wired _ _ _ Hrun) as [Hw _].
  destruct (Hw h s Hs) as [Hm Hc].
  assert (on_endpoint w) as Ho.
  { apply (on_endpoint_run evs (init l) w); [apply wired_init| |done].
    intros j x Hj. done. }
  destruct (Ho h s Hs) as [l' Hl].
  split; [done|]. split; [done|].
  split; [rewrite Hl; apply ws_url_ok_wsUrl|by exists l'].
Qed.

(** ** The pace of one chain *)

Lemma paced_unmounted (w : World) : unmounted w → paced w.
Proof.
  intros (_ & Hs & Ht). split; [|split].
  - intros k a b H. by rewrite Hs in H.
  - intros h s H. by rewrite Hs in H.
  - intros id t h s H. by rewrite Ht, lookup_empty in H.
Qed.

Lemma paced_mount (w : World) : unmounted w → paced (connected w).
Proof.
  intros (_ & Hs & Ht). split; [|split]; simpl; rewrite ?Hs, ?Ht.
  - intros k a b _ H. by destruct k.
  - intros h s H. destruct h as [|h]; [|by destruct h].
    injection H as <-. simpl. lia.
  - intros id t h s H. by rewrite lookup_empty in H.
Qed.

Lemma paced_alter (f : WebSocket → WebSocket) (h : nat) (w : World) :
  (∀ s, created (f s) = created s) →
  paced w → paced (with_sockets (alter f h) w).
Proof.
  intros Hf (Hp & Hn & Ht).
  assert (∀ j y, alter f h (sockets w) !! j = Some y →
                 ∃ x, sockets w !! j = Some x ∧ created y = created x) as Hlk.
  { intros j y Hy. apply lookup_alter_inv in Hy as (x & Hx & ->).
    exists x. split; [done|]. by case_decide. }
  split; [|split]; simpl.
  - intros k a b Ha Hb.
    apply Hlk in Ha as (a' & Ha' & ->). apply Hlk in Hb as (b' & Hb' & ->).
    by apply (Hp k).
  - intros j y Hy. apply Hlk in Hy as (x & Hx & ->). by apply (Hn j).
  - intros id t j y Hid Hy. apply Hlk in Hy as (x & Hx & ->).
    by apply (Ht id t j).
Qed.

Lemma paced_step (e : Event) (w w' : World) :
  wired w → single_chain w → paced w → mounts [e] = 0%nat →
  step e w = Some w' → paced w'.
Proof.
  intros Hw [_ Hsz] Hpaced Hm H. pose proof Hpaced as (Hp & Hn & Ht).
  destruct e; try done.
  - rewrite step_Unmount in H. injection H as <-.
    destruct (ws (this w)); [|done]. apply paced_alter; [|done].
    intros s. unfold close_socket. by destruct (readyState s).
  - apply step_NetOpen in H as (s & _ & _ & ->). by apply paced_alter.
  - apply step_NetMessage in H as (s & _ & _ & ->); [|done].
    destruct (report_onmessage_frame text w) as (_ & Hs & Hti & _ & Hnow & _).
    unfold paced. by rewrite Hs, Hti, Hnow.
  - apply step_NetClose in H as (s & _ & _ & ->); [|done].
    destruct (paced_alter (set_readyState CLOSED) h w (λ _, eq_refl) Hpaced)
      as (Hp' & Hn' & Ht').
    split; [exact Hp'|]. split; [exact Hn'|].
    intros id t j y Hid Hy. simpl in Hid.
    apply lookup_insert_Some in Hid as [[_ <-]|[_ Hid]].
    + simpl. pose proof (Hn' j y Hy) as Hle. simpl in Hle. lia.
    + by apply (Ht' id t j).
  - injection H as <-. split; [done|]. split; [|done].
    intros h s Hs. simpl. pose proof (Hn h s Hs). lia.
  - apply step_Fire in H as (t & Htm & Hdue & ->); [|done].
    assert (delete id (timers w) = ∅) as He.
    { apply map_size_empty_inv. rewrite map_size_delete_Some by eauto. lia. }
    split; [|split]; simpl.
    + intros k a b Ha Hb.
      apply lookup_snoc_inv in Hb as [Hb|[Hk ->]].
      * apply lookup_snoc_inv in Ha as [Ha|[Hk _]]; [by apply (Hp k)|].
        apply lookup_lt_Some in Hb. lia.
      * apply lookup_snoc_inv in Ha as [Ha|[Hk' _]]; [|lia].
        simpl. pose proof (Ht id t k a Htm Ha). lia.
    + intros h s Hs. apply lookup_snoc_inv in Hs as [Hs|[_ ->]]; [by apply (Hn h)|].
      simpl. lia.
    + intros j t' h s Hj. by rewrite He, lookup_empty in Hj.
  - by injection H as <-.
  - by injection H as <-.
  - by injection H as <-.
Qed.

Lemma paced_run (evs : list Event) (w w' : World) :
  wired w → single_chain w → paced w → mounts evs = 0%nat →
  run evs w = Some w' → paced w'.
Proof.
  revert w. induction evs as [|e evs IH]; intros w Hw Hc Hp Hm H; simpl in H.
  - by injection H as <-.
  - destruct (step e w) as [w1|] eqn:He; simpl in H; [|done].
    assert (mounts [e] = 0%nat ∧ mounts evs = 0%nat) as [H1 H2]
      by (destruct e; simpl in *; (done || lia)).
    apply (IH w1); [by eapply wired_step| | |done|done].
    + by apply (chain_step e w w1).
    + by apply (paced_step e w w1).
Qed.

Lemma mount_once_paced (evs : list Event) (w w' : World) :
  wired w → unmounted w → (mounts evs ≤ 1)%nat →
  run evs w = Some w' → paced w'.
Proof.
  revert w. induction evs as [|e evs IH]; intros w Hw Hu Hm H; simpl in H.
  - injection H as <-. by apply paced_unmounted.
  - destruct (step e w) as [w1|] eqn:He; simpl in H; [|done].
    assert (wired w1) as Hw1 by (by eapply wired_step).
    destruct (decide (mounts [e] = 0%nat)) as [H0|H1].
    + apply (IH w1); [done| | |done].
      * by apply (unmounted_step e w w1).
      * destruct e; simpl in *; (done || lia).
    + destruct e; try done. rewrite step_Mount in He. injection He as <-.
      apply (paced_run evs (connected w) w');
        [done|by apply chain_mount|by apply paced_mount| |done].
      simpl in Hm. lia.
Qed.

(** X8.  The component never reconnects faster than once per delay: when
    the element was mounted once, any two sockets created one after the
    other were created at least 1000 ms apart, however quickly the
    connections fail. *)
Theorem attempts_are_a_delay_apart
    (l : Location) (evs : list Event) (w : World) (k : nat) (a b : WebSocket) :
  run evs (init l) = Some w →
  (mounts evs ≤ 1)%nat →
  sockets w !! k = Some a →
  sockets w !! S k = Some b →
  created a + 1000 ≤ created b.
Proof.
  intros Hrun Hm Ha Hb.
  destruct (mount_once_paced evs (init l) w (wired_init l) (unmounted_init l)
              Hm Hrun) as (Hp & _).
  exact (Hp k a b Ha Hb).
Qed.

(** ** Recovery *)

Lemma can_resume_connected (w : World) : can_resume (connected w).
Proof.
  left. exists (fresh_socket (wsUrl_of (location w)) (now w)). simpl.
  split; [|done]. rewrite length_app. simpl.
  replace (pred (length (sockets w) + 1)) with (length (sockets w)) by lia.
  by rewrite list_lookup_middle.
Qed.

Lemma can_resume_alter (f : WebSocket → WebSocket) (h : nat) (w : World) :
  (∀ s, sockets w !! h = Some s → readyState s ≠ CLOSED →
        readyState (f s) ≠ CLOSED) →
  can_resume w → can_resume (with_sockets (alter f h) w).
Proof.
  intros Hf [(s & Hs & Hl)|Ht]; [|by right]. left. simpl.
  rewrite length_alter, list_lookup_alter.
  case_decide as Hh.
  - subst h. rewrite Hs. simpl. eexists. split; [done|]. by apply Hf.
  - by exists s.
Qed.

Lemma can_resume_step (e : Event) (w w' : World) :
  wired w → can_resume w → step e w = Some w' → can_resume w'.
Proof.
  intros Hw Hr H. destruct e.
  - rewrite step_Mount in H. injection H as <-. apply can_resume_connected.
  - rewrite step_Unmount in H. injection H as <-.
    destruct (ws (this w)); [|done]. apply can_resume_alter; [|done].
    intros s _. apply close_socket_live.
  - apply step_NetOpen in H as (s & _ & _ & ->).
    apply can_resume_alter; [|done]. by intros.
  - apply step_NetMessage in H as (s & _ & _ & ->); [|done].
    destruct (report_onmessage_frame text w) as (_ & Hs & Ht & _).
    unfold can_resume. by rewrite Hs, Ht.
  - apply step_NetClose in H as (s & _ & _ & ->); [|done].
    right. simpl. apply insert_non_empty.
  - by injection H as <-.
  - apply step_Fire in H as (t & _ & _ & ->); [|done].
    apply can_resume_connected.
  - by injection H as <-.
  - by injection H as <-.
  - by injection H as <-.
Qed.

Lemma can_resume_run (evs : list Event) (w w' : World) :
  wired w → can_resume w ∨ unmounted w → (1 ≤ mounts evs)%nat ∨ can_resume w →
  run evs w = Some w' → can_resume w'.
Proof.
  revert w. induction evs as [|e evs IH]; intros w Hw Hu Hm H; simpl in H.
  - injection H as <-. destruct Hm as [Hm|Hm]; [simpl in Hm; lia|done].
  - destruct (step e w) as [w1|] eqn:He; simpl in H; [|done].
    assert (wired w1) as Hw1 by (by eapply wired_step).
    destruct (decide (mounts [e] = 0%nat)) as [H0|H1].
    + destruct Hu as [Hr|Hu].
      * apply (IH w1); [done|left|right|done];
          by apply (can_resume_step e w w1).
      * apply (IH w1); [done|right| |done].
        -- by apply (unmounted_step e w w1).
        -- destruct Hm as [Hm|Hr]; [left|].
           ++ change (e :: evs) with ([e] ++ evs) in Hm.
              rewrite mounts_app in Hm. lia.
           ++ right. by apply (can_resume_step e w w1).
    + destruct e; try done. rewrite step_Mount in He. injection He as <-.
      apply (IH (connected w)); [done|left|right|done];
        apply can_resume_connected.
Qed.

Lemma step_NetOpen_connecting (h : nat) (s : WebSocket) (w : World) :
  sockets w !! h = Some s → readyState s = CONNECTING →
  step (NetOpen h) w = Some (with_sockets (alter (set_readyState OPEN) h) w).
Proof. intros Hs Hr. unfold step. rewrite Hs. simpl. by case_decide. Qed.

Lemma fire_then_open (id : nat) (t : Timer) (w : World) :
  timers w !! id = Some t → callback t = Reconnect → due t ≤ now w →
  ∃ w', run [Fire id; NetOpen (length (sockets w))] w = Some w'
        ∧ held_open w'.
Proof.
  intros Ht Hc Hd.
  set (w1 := connected (with_timers (delete id) (next_timer w) w)).
  assert (sockets w1 !! length (sockets w)
          = Some (fresh_socket (wsUrl_of (location w)) (now w))) as Hn
    by (subst w1; simpl; by rewrite list_lookup_middle).
  exists (with_sockets (alter (set_readyState OPEN) (length (sockets w))) w1).
  split.
  - rewrite (run_cons _ _ _ _ (step_Fire_due id t w Ht Hc Hd)). fold w1.
    by rewrite (run_cons _ [] _ _ (step_NetOpen_connecting _ _ w1 Hn eq_refl)).
  - exists (length (sockets w)), (set_readyState OPEN
              (fresh_socket (wsUrl_of (location w)) (now w))).
    split; [done|]. split; [|done]. simpl sockets.
    rewrite list_lookup_alter_eq.
    change (sockets w ++ [fresh_socket (wsUrl_of (location w)) (now w)])
      with (sockets w1).
    by rewrite Hn.
Qed.

(** X9.  The channel can always be resumed without mounting the element
    again.  From every world reached after the element was mounted,
    whatever happened since (failed connections, drops, teardown), the
    continuation [resumption w] is enabled and ends in a world in which
    the socket held in [this.ws] is OPEN: the handshake if the newest
    socket is CONNECTING; its close event, one delay, the reconnection
    timer set by that close event and the handshake of the new socket if
    it is CLOSING; one delay, a pending reconnection timer and the
    handshake of the new socket if it is CLOSED. *)
Theorem channel_can_always_resume
    (l : Location) (evs : list Event) (w : World) :
  run evs (init l) = Some w →
  (1 ≤ mounts evs)%nat →
  mounts (resumption w) = 0%nat
  ∧ (length (resumption w) ≤ 4)%nat
  ∧ ∃ w', run (resumption w) w = Some w' ∧ held_open w'.
Proof.
  intros Hrun Hm.
  pose proof (reachable_wired _ _ _ Hrun) as Hw.
  assert (holds_newest w) as Hn
    by (apply (holds_newest_run evs (init l) w); [apply wired_init|done|done]).
  assert (timers_bounded w) as Hb.
  { apply (timers_bounded_run evs (init l) w); [apply wired_init| |done].
    intros j t' Hj. simpl in Hj. by rewrite lookup_empty in Hj. }
  assert (can_resume w) as Hr.
  { apply (can_resume_run evs (init l) w); [apply wired_init| | |done].
    - right. apply unmounted_init.
    - by left. }
  (* the continuation through a pending timer *)
  assert (timers w ≠ ∅ →
          ∃ id, (match map_to_list (timers w) with
                 | (id, _) :: _ =>
                     [Elapse RECONNECT_DELAY; Fire id; NetOpen (length (sockets w))]
                 | [] => []
                 end)
                = [Elapse RECONNECT_DELAY; Fire id; NetOpen (length (sockets w))]
                ∧ ∃ w', run [Elapse RECONNECT_DELAY; Fire id;
                             NetOpen (length (sockets w))] w = Some w'
                        ∧ held_open w') as Hfire.
  { intros Hne.
    destruct (map_to_list (timers w)) as [|[id t] rest] eqn:Hl.
    { by apply map_to_list_empty_iff in Hl. }
    assert (timers w !! id = Some t) as Ht.
    { apply elem_of_map_to_list. rewrite Hl. left. }
    exists id. split; [done|].
    destruct (Hb id t Ht) as [Hc Hd].
    rewrite (run_cons (Elapse RECONNECT_DELAY) _ _ _ eq_refl).
    apply (fire_then_open id t (with_now (now w + RECONNECT_DELAY) w));
      [done|done|simpl; lia]. }
  unfold resumption.
  destruct (sockets w !! pred (length (sockets w))) as [s|] eqn:Hs.
  - assert (ws (this w) = Some (pred (length (sockets w)))) as Hws.
    { unfold holds_newest in Hn. rewrite Hn.
      destruct (sockets w); [done|done]. }
    destruct (readyState s) eqn:Hst.
    + (* CONNECTING *)
      split; [done|]. split; [simpl; lia|].
      eexists. split.
      * by rewrite (run_cons _ [] _ _ (step_NetOpen_connecting _ _ w Hs Hst)).
      * exists (pred (length (sockets w))), (set_readyState OPEN s).
        split; [done|]. split; [|done]. simpl.
        by rewrite list_lookup_alter_eq, Hs.
    + (* OPEN *)
      split; [done|]. split; [simpl; lia|].
      exists w. split; [done|].
      by exists (pred (length (sockets w))), s.
    + (* CLOSING *)
      split; [done|]. split; [simpl; lia|].
      assert (readyState s ≠ CLOSED) as Hl' by (by rewrite Hst).
      pose proof (step_NetClose_live _ s w Hw Hs Hl') as Hc.
      destruct (fire_then_open (next_timer w) (reconnection (now w))
                  (with_now (now w + RECONNECT_DELAY)
                     (after_close (pred (length (sockets w))) w)))
        as (w' & Hrun' & Ho).
      { simpl. apply lookup_insert_eq. }
      { done. }
      { simpl. lia. }
      exists w'. split; [|done].
      rewrite (run_cons _ _ _ _ Hc).
      rewrite (run_cons (Elapse RECONNECT_DELAY) _ _ _ eq_refl).
      simpl sockets in Hrun'. rewrite length_alter in Hrun'. exact Hrun'.
    + (* CLOSED *)
      destruct Hr as [(s' & Hs' & Hl')|Ht].
      { rewrite Hs in Hs'. injection Hs' as <-. by rewrite Hst in Hl'. }
      destruct (Hfire Ht) as (id & -> & Hex).
      split; [done|]. split; [simpl; lia|done].
  - destruct Hr as [(s' & Hs' & _)|Ht]; [by rewrite Hs in Hs'|].
    destruct (Hfire Ht) as (id & -> & Hex).
    split; [done|]. split; [simpl; lia|done].
Qed.

(** ** The [action] property *)

Lemma call_erase_action (c : Closure) (data : string) (w : World) :
  report (call c data (erase_action w)) = erase_action (report (call c data w)).
Proof.
  destruct c; simpl.
  - unfold onmessage_body, mbind, JS_bind, JSON_parse.
    by destruct (JSON_parse_text data).
  - done.
  - by rewrite !connectWebSocket_eq.
Qed.

Lemma step_erase_action (e : Event) (w w' : World) :
  step e w = Some w' →
  run (drop_action_writes [e]) (erase_action w) = Some (erase_action w').
Proof.
  intros H. destruct e; simpl drop_action_writes.
  - rewrite step_Mount in H. injection H as <-.
    by rewrite (run_cons _ [] _ _ (step_Mount (erase_action w))).
  - rewrite step_Unmount in H. injection H as <-.
    rewrite (run_cons _ [] _ _ (step_Unmount (erase_action w))). simpl.
    by destruct (ws (this w)).
  - apply step_NetOpen in H as (s & Hs & Hr & ->).
    by rewrite (run_cons _ [] _ _
                  (step_NetOpen_connecting h s (erase_action w) Hs Hr)).
  - unfold step in H. simpl. unfold step. simpl sockets.
    destruct (sockets w !! h) as [s|]; simpl in *; [|done].
    case_decide; [|done]. injection H as <-.
    destruct (onmessage s) as [c|]; simpl; [|done].
    by rewrite call_erase_action.
  - unfold step in H. simpl. unfold step. simpl sockets.
    destruct (sockets w !! h) as [s|]; simpl in *; [|done].
    case_decide; [done|]. injection H as <-.
    destruct (onclose s) as [c|]; simpl; [|done].
    by rewrite <- call_erase_action.
  - by injection H as <-.
  - unfold step in H. simpl. unfold step. simpl timers. simpl now.
    destruct (timers w !! id) as [t|]; simpl in *; [|done].
    case_decide; [|done]. injection H as <-.
    by rewrite <- call_erase_action.
  - by injection H as <-.
  - by injection H as <-.
  - by injection H as <-.
Qed.

Lemma drop_action_writes_cons (e : Event) (evs : list Event) :
  drop_action_writes (e :: evs)
  = drop_action_writes [e] ++ drop_action_writes evs.
Proof. by destruct e. Qed.

Lemma run_erase_action (evs : list Event) (w w' : World) :
  run evs w = Some w' →
  run (drop_action_writes evs) (erase_action w) = Some (erase_action w').
Proof.
  revert w. induction evs as [|e evs IH]; intros w H.
  - by injection H as <-.
  - simpl in H. destruct (step e w) as [w1|] eqn:He; simpl in H; [|done].
    rewrite drop_action_writes_cons, run_app.
    rewrite (step_erase_action e w w1 He). simpl. by apply IH.
Qed.

(** X10.  The [action] property is declared and never read: a run and the
    same run without the writes to [action] go through the same turns and
    end with the same sockets, timers, dispatched events, console and
    [this.ws]; they differ in the value of [action] only. *)
Theorem action_property_is_never_read
    (l : Location) (evs : list Event) (w : World) :
  run evs (init l) = Some w →
  run (drop_action_writes evs) (init l) = Some (erase_action w)
  ∧ sockets (erase_action w) = sockets w
  ∧ timers (erase_action w) = timers w
  ∧ dispatched (erase_action w) = dispatched w
  ∧ console (erase_action w) = console w
  ∧ ws (this (erase_action w)) = ws (this w)
  ∧ triggerEvent (this (erase_action w)) = triggerEvent (this w).
Proof.
  intros H. split; [|done].
  exact (run_erase_action evs (init l) w H).
Qed.

End Runs.

(** * Scenarios

    The theorems above at concrete runs, with the decoder [decode] for
    [JSON.parse], and the runs on which the code departs from the
    specification. *)

#[local] Existing Instance decode.

Example decode_ping :
  decode ping_frame = Some (JObj [("type", JStr "ping")]%string).
Proof. reflexivity. Qed.

Example decode_not_json : decode "not-json" = None.
Proof. reflexivity. Qed.

Example decode_nested :
  decode "[1, -20, true, null, {}, [ ] ]"
  = Some (JArr [JNum 1; JNum (-20); JBool true; JNull; JObj []; JArr []]).
Proof. reflexivity. Qed.

(** C1.  Teardown does not stop the channel.  [disconnectedCallback]
    closes the socket, the socket's close event then runs the same
    [onclose] handler as a lost connection and sets the reconnection
    timer; one second later a new socket is opened, and a frame arriving
    on it is dispatched.  A timer that was already pending at teardown is
    not cancelled either: it runs and reconnects. *)
Theorem teardown_is_followed_by_reconnection :
  let torn_down := after [Mount; NetOpen 0; Unmount]%nat secure_page in
  let pending := after [Mount; NetClose 0; Unmount]%nat secure_page in
  run [Mount; NetOpen 0; Unmount]%nat (init secure_page) = Some torn_down
  ∧ length (sockets torn_down) = 1%nat
  ∧ dispatched torn_down = []
  ∧ (∃ w, run [NetClose 0; Elapse 1000; Fire 0; NetOpen 1;
               NetMessage 1 ping_frame]%nat torn_down = Some w
          ∧ length (sockets w) = 2%nat
          ∧ live_handles w = [1%nat]
          ∧ dispatched w =
            [{| ev_name := None;
                ev_action := JObj [("type"%string, JStr "ping")] |}])
  ∧ run [Mount; NetClose 0; Unmount]%nat (init secure_page) = Some pending
  ∧ size (timers pending) = 1%nat
  ∧ (∃ w, run [Elapse 1000; Fire 0%nat] pending = Some w
          ∧ length (sockets w) = 2%nat
          ∧ live_handles w = [1%nat]).
Proof.
  intros torn_down pending.
  split; [vm_compute; reflexivity|].
  split; [vm_compute; reflexivity|].
  split; [vm_compute; reflexivity|].
  split.
  { eexists. split; [vm_compute; reflexivity|].
    split; [vm_compute; reflexivity|].
    split; vm_compute; reflexivity. }
  split; [vm_compute; reflexivity|].
  split; [vm_compute; reflexivity|].
  eexists. split; [vm_compute; reflexivity|].
  split; vm_compute; reflexivity.
Qed.

(** A second mount of the same element is a second Channel beside the
    first: the chain of the first mount is not ended by teardown (the
    defect of C1), so the element that is unmounted and mounted again ends
    up with two open sockets, one of each chain. *)
Lemma remount_opens_two_connections :
  ¬ (∀ (evs : list Event) (w : World),
       run evs (init secure_page) = Some w →
       (length (live_handles w) ≤ 1)%nat).
Proof.
  intros H.
  specialize (H [Mount; NetOpen 0; Unmount; Mount; NetOpen 1; NetClose 0;
                 Elapse 1000; Fire 0; NetOpen 2]%nat
                (after [Mount; NetOpen 0; Unmount; Mount; NetOpen 1; NetClose 0;
                        Elapse 1000; Fire 0; NetOpen 2]%nat secure_page)
                ltac:(vm_compute; reflexivity)).
  vm_compute in H. lia.
Qed.

(** The scenario of the specification: a frame that is not JSON on an
    open socket, followed by the ping frame. *)
Lemma malformed_frame_is_isolated_witness :
  let w := after [Mount; NetOpen 0]%nat secure_page in
  let w1 := with_console (SyntaxError "Unexpected token") w in
  run [Mount; NetOpen 0]%nat (init secure_page) = Some w
  ∧ step (NetMessage 0 "not-json") w = Some w1
  ∧ JSON_parse_text "not-json" = None
  ∧ dispatched w1 = []
  ∧ sockets w1 = sockets w
  ∧ ∃ w2, step (NetMessage 0 ping_frame) w1 = Some w2
          ∧ dispatched w2 =
            [{| ev_name := None;
                ev_action := JObj [("type"%string, JStr "ping")] |}].
Proof.
  intros w w1.
  assert (run [Mount; NetOpen 0]%nat (init secure_page) = Some w) as H1
    by (vm_compute; reflexivity).
  assert (step (NetMessage 0 "not-json") w = Some w1) as H2
    by (vm_compute; reflexivity).
  assert (JSON_parse_text "not-json" = None) as H3 by reflexivity.
  destruct (malformed_frame_is_isolated secure_page [Mount; NetOpen 0]%nat
              w w1 0%nat "not-json" H1 H2 H3)
    as (Hd & Hs & _ & _ & _ & Hnext).
  split; [exact H1|]. split; [exact H2|]. split; [exact H3|].
  split; [exact Hd|]. split; [exact Hs|].
  destruct (Hnext ping_frame (JObj [("type"%string, JStr "ping")]) eq_refl)
    as (w2 & Hstep & Hdisp & _).
  exists w2. split; [exact Hstep|exact Hdisp].
Defined.


(** A connection dropped 250 ms after the page was loaded. *)
Lemma reconnect_after_fixed_delay_witness :
  let evs := [Mount; NetOpen 0; Elapse 250]%nat in
  let w := after evs secure_page in
  let w1 := after_close 0 w in
  run evs (init secure_page) = Some w
  ∧ step (NetClose 0) w = Some w1
  ∧ timers w1 = <[0%nat := reconnection 250]> (timers w)
  ∧ due (reconnection 250) = 1250
  ∧ length (sockets w1) = 1%nat.
Proof.
  intros evs w w1.
  assert (run evs (init secure_page) = Some w) as H1 by (vm_compute; reflexivity).
  assert (step (NetClose 0) w = Some w1) as H2 by (vm_compute; reflexivity).
  destruct (reconnect_after_fixed_delay secure_page evs 0%nat w w1 H1 H2)
    as (_ & Ht & Hd & Hl & _).
  split; [exact H1|]. split; [exact H2|].
  split; [exact Ht|]. split; [exact Hd|exact Hl].
Defined.

(** Four refusals in a row after the first attempt. *)
Lemma every_close_is_retried_witness :
  let w := after [Mount] secure_page in
  let s := fresh_socket "wss://example.test/__ws__" 0 in
  run [Mount] (init secure_page) = Some w
  ∧ sockets w !! 0%nat = Some s
  ∧ readyState s ≠ CLOSED
  ∧ ∃ w', run (keeps_failing 0 1 0 3) w = Some w'
          ∧ length (sockets w') = 5%nat
          ∧ ws (this w') = Some 4%nat
          ∧ now w' = 4000.
Proof.
  intros w s.
  assert (run [Mount] (init secure_page) = Some w) as H1 by (vm_compute; reflexivity).
  assert (sockets w !! 0%nat = Some s) as H2 by (vm_compute; reflexivity).
  assert (readyState s ≠ CLOSED) as H3 by (simpl; discriminate).
  destruct (every_close_is_retried secure_page [Mount] w 0%nat s 3 H1 H2 H3)
    as (w' & Hrun & Hlen & Hws & Hnow & _).
  split; [exact H1|]. split; [exact H2|]. split; [exact H3|].
  exists w'. split; [exact Hrun|]. split; [exact Hlen|].
  split; [exact Hws|exact Hnow].
Defined.

(** The ping frame, with the event name set by the framework. *)
Lemma well_formed_frame_dispatches_once_witness :
  let evs := [Mount; SetTriggerEvent (Some "poll"%string); NetOpen 0]%nat in
  let w := after evs plain_page in
  let v := JObj [("type"%string, JStr "ping")] in
  let w' := with_dispatched {| ev_name := Some "poll"%string; ev_action := v |} w in
  run evs (init plain_page) = Some w
  ∧ step (NetMessage 0 ping_frame) w = Some w'
  ∧ JSON_parse_text ping_frame = Some v
  ∧ dispatched w' = [{| ev_name := Some "poll"%string; ev_action := v |}]
  ∧ console w' = [].
Proof.
  intros evs w v w'.
  assert (run evs (init plain_page) = Some w) as H1 by (vm_compute; reflexivity).
  assert (step (NetMessage 0 ping_frame) w = Some w') as H2
    by (vm_compute; reflexivity).
  assert (JSON_parse_text ping_frame = Some v) as H3 by reflexivity.
  destruct (well_formed_frame_dispatches_once plain_page evs w w' 0%nat
              ping_frame v H1 H2 H3) as (Hd & Hc & _).
  split; [exact H1|]. split; [exact H2|]. split; [exact H3|].
  split; [exact Hd|exact Hc].
Defined.

(** The element is created, time passes, the page moves; it is never
    mounted. *)
Lemma teardown_before_mount_is_noop_witness :
  let evs := [Elapse 5; Navigate plain_page; Unmount] in
  let w := after evs secure_page in
  run evs (init secure_page) = Some w
  ∧ mounts evs = 0%nat
  ∧ disconnectedCallback w = Normal tt w
  ∧ step Unmount w = Some w.
Proof.
  intros evs w.
  assert (run evs (init secure_page) = Some w) as H1 by (vm_compute; reflexivity).
  assert (mounts evs = 0%nat) as H2 by reflexivity.
  destruct (teardown_before_mount_is_noop secure_page evs w H1 H2)
    as (_ & Hd & Hs).
  split; [exact H1|]. split; [exact H2|]. split; [exact Hd|exact Hs].
Defined.

(** A reconnection timer running after the framework has set both
    properties. *)
Lemma properties_are_never_written_witness :
  let evs := [Mount; SetTriggerEvent (Some "poll"%string);
              SetAction (Some (JBool true)); NetClose 0; Elapse 1000]%nat in
  let w := after evs secure_page in
  let w' := connected (with_timers (delete 0%nat) 1%nat w) in
  step (Fire 0) w = Some w'
  ∧ is_property_write (Fire 0) = false
  ∧ triggerEvent (this w') = Some "poll"%string
  ∧ action (this w') = Some (JBool true).
Proof.
  intros evs w w'.
  assert (step (Fire 0) w = Some w') as H1 by (vm_compute; reflexivity).
  assert (is_property_write (Fire 0) = false) as H2 by reflexivity.
  destruct (properties_are_never_written (Fire 0) w w' H1 H2) as (Ht & Ha & _).
  split; [exact H1|]. split; [exact H2|].
  split; [rewrite Ht|rewrite Ha]; vm_compute; reflexivity.
Defined.

(** ** Whole runs, at concrete inputs *)

(** Three frames, the second one malformed, the third after the framework
    has set the event name. *)
Lemma run_forwards_frames_in_order_witness :
  let evs := [Mount; NetOpen 0; NetMessage 0 ping_frame;
              NetMessage 0 "not-json"; SetTriggerEvent (Some "poll"%string);
              NetMessage 0 "[1,2]"]%nat in
  let w := after evs secure_page in
  run evs (init secure_page) = Some w
  ∧ dispatched w =
    [{| ev_name := None; ev_action := JObj [("type"%string, JStr "ping")] |};
     {| ev_name := Some "poll"%string; ev_action := JArr [JNum 1; JNum 2] |}]
  ∧ console w = [SyntaxError "Unexpected token"].
Proof.
  intros evs w.
  assert (run evs (init secure_page) = Some w) as H1 by (vm_compute; reflexivity).
  destruct (run_forwards_frames_in_order secure_page evs w H1) as [Hd Hc].
  split; [exact H1|]. split; [exact Hd|exact Hc].
Defined.

(** Two mounts with a teardown in between: two chains. *)
Lemma chains_equal_mounts_witness :
  let evs := [Mount; NetOpen 0; Unmount; Mount; NetClose 0]%nat in
  let w := after evs secure_page in
  run evs (init secure_page) = Some w
  ∧ (live_count w + size (timers w) = 2)%nat.
Proof.
  intros evs w.
  assert (run evs (init secure_page) = Some w) as H1 by (vm_compute; reflexivity).
  split; [exact H1|].
  exact (chains_equal_mounts secure_page evs w H1).
Defined.

(** Teardown of an open connection, then the close event and a second. *)
Lemma teardown_silences_until_a_timer_runs_witness :
  let evs := [Mount; NetOpen 0]%nat in
  let evs' := [NetClose 0; Elapse 1000; Navigate plain_page]%nat in
  let w := after evs secure_page in
  let w1 := after (evs ++ [Unmount]) secure_page in
  let w2 := after (evs ++ [Unmount] ++ evs') secure_page in
  run evs (init secure_page) = Some w
  ∧ (mounts evs ≤ 1)%nat
  ∧ step Unmount w = Some w1
  ∧ Forall (λ e, is_attempt e = false) evs'
  ∧ run evs' w1 = Some w2
  ∧ dispatched w2 = dispatched w
  ∧ length (sockets w2) = length (sockets w)
  ∧ step (NetMessage 0 ping_frame) w2 = None.
Proof.
  intros evs evs' w w1 w2.
  assert (run evs (init secure_page) = Some w) as H1 by (vm_compute; reflexivity).
  assert (mounts evs ≤ 1)%nat as H2 by (simpl; lia).
  assert (step Unmount w = Some w1) as H3 by (vm_compute; reflexivity).
  assert (Forall (λ e, is_attempt e = false) evs') as H4
    by (repeat constructor).
  assert (run evs' w1 = Some w2) as H5 by (vm_compute; reflexivity).
  destruct (teardown_silences_until_a_timer_runs secure_page evs evs' w w1 w2
              H1 H2 H3 H4 H5) as (Hd & _ & Hl & Hm).
  split; [exact H1|]. split; [exact H2|]. split; [exact H3|].
  split; [exact H4|]. split; [exact H5|]. split; [exact Hd|].
  split; [exact Hl|exact (Hm 0%nat ping_frame)].
Defined.

(** Two open sockets after a second mount: teardown leaves socket 0 as it
    is. *)
Lemma teardown_closes_newest_only_witness :
  let evs := [Mount; NetOpen 0; Mount; NetOpen 1]%nat in
  let w := after evs secure_page in
  let w' := after (evs ++ [Unmount]) secure_page in
  run evs (init secure_page) = Some w
  ∧ step Unmount w = Some w'
  ∧ ws (this w) = Some 1%nat
  ∧ sockets w' !! 0%nat = sockets w !! 0%nat.
Proof.
  intros evs w w'.
  assert (run evs (init secure_page) = Some w) as H1 by (vm_compute; reflexivity).
  assert (step Unmount w = Some w') as H2 by (vm_compute; reflexivity).
  destruct (teardown_closes_newest_only secure_page evs w w' H1 H2)
    as (Hn & _ & Hold).
  split; [exact H1|]. split; [exact H2|]. split; [exact Hn|].
  apply Hold. vm_compute. lia.
Defined.

(** A reconnection pending for 400 ms. *)
Lemma pending_timers_are_due_within_the_delay_witness :
  let evs := [Mount; NetClose 0; Elapse 400]%nat in
  let w := after evs secure_page in
  run evs (init secure_page) = Some w
  ∧ timers w !! 0%nat = Some (reconnection 0)
  ∧ due (reconnection 0) ≤ now w + 1000
  ∧ ∃ w', run [Elapse 1000; Fire 0%nat] w = Some w'
          ∧ length (sockets w') = S (length (sockets w)).
Proof.
  intros evs w.
  assert (run evs (init secure_page) = Some w) as H1 by (vm_compute; reflexivity).
  assert (timers w !! 0%nat = Some (reconnection 0)) as H2
    by (vm_compute; reflexivity).
  destruct (pending_timers_are_due_within_the_delay secure_page evs w 0%nat
              (reconnection 0) H1 H2) as (_ & Hd & Hf).
  split; [exact H1|]. split; [exact H2|]. split; [exact Hd|exact Hf].
Defined.

(** The socket opened by the first mount on a plain page. *)
Lemma every_socket_is_wired_to_the_endpoint_witness :
  let w := after [Mount] plain_page in
  let s := fresh_socket "ws://localhost:8080/__ws__" 0 in
  run [Mount] (init plain_page) = Some w
  ∧ sockets w !! 0%nat = Some s
  ∧ onmessage s = Some OnMessage
  ∧ onclose s = Some OnClose
  ∧ ws_url_ok (url s) = true.
Proof.
  intros w s.
  assert (run [Mount] (init plain_page) = Some w) as H1
    by (vm_compute; reflexivity).
  assert (sockets w !! 0%nat = Some s) as H2 by (vm_compute; reflexivity).
  destruct (every_socket_is_wired_to_the_endpoint plain_page [Mount] w 0%nat s
              H1 H2) as (Hm & Hc & Hu & _).
  split; [exact H1|]. split; [exact H2|]. split; [exact Hm|].
  split; [exact Hc|exact Hu].
Defined.

(** A refused connection and a timer that runs late. *)
Lemma attempts_are_a_delay_apart_witness :
  let evs := [Mount; NetClose 0; Elapse 1500; Fire 0]%nat in
  let w := after evs secure_page in
  let a := set_readyState CLOSED (fresh_socket "wss://example.test/__ws__" 0) in
  let b := fresh_socket "wss://example.test/__ws__" 1500 in
  run evs (init secure_page) = Some w
  ∧ (mounts evs ≤ 1)%nat
  ∧ sockets w !! 0%nat = Some a
  ∧ sockets w !! 1%nat = Some b
  ∧ created a + 1000 ≤ created b.
Proof.
  intros evs w a b.
  assert (run evs (init secure_page) = Some w) as H1 by (vm_compute; reflexivity).
  assert (mounts evs ≤ 1)%nat as H2 by (simpl; lia).
  assert (sockets w !! 0%nat = Some a) as H3 by (vm_compute; reflexivity).
  assert (sockets w !! 1%nat = Some b) as H4 by (vm_compute; reflexivity).
  split; [exact H1|]. split; [exact H2|]. split; [exact H3|].
  split; [exact H4|].
  exact (attempts_are_a_delay_apart secure_page evs w 0%nat a b H1 H2 H3 H4).
Defined.

(** After teardown of an open connection: the close event, one delay,
    the timer and the handshake of the new socket. *)
Lemma channel_can_always_resume_witness :
  let evs := [Mount; NetOpen 0; Unmount]%nat in
  let w := after evs secure_page in
  run evs (init secure_page) = Some w
  ∧ (1 ≤ mounts evs)%nat
  ∧ resumption w = [NetClose 0; Elapse 1000; Fire 0; NetOpen 1]%nat
  ∧ ∃ w', run [NetClose 0; Elapse 1000; Fire 0; NetOpen 1]%nat w = Some w'
          ∧ held_open w'.
Proof.
  intros evs w.
  assert (run evs (init secure_page) = Some w) as H1 by (vm_compute; reflexivity).
  assert (1 ≤ mounts evs)%nat as H2 by (simpl; lia).
  assert (resumption w = [NetClose 0; Elapse 1000; Fire 0; NetOpen 1]%nat) as H3
    by (vm_compute; reflexivity).
  split; [exact H1|]. split; [exact H2|]. split; [exact H3|].
  rewrite <- H3.
  exact (proj2 (proj2 (channel_can_always_resume secure_page evs w H1 H2))).
Defined.

(** A run in which the framework writes [action] twice. *)
Lemma action_property_is_never_read_witness :
  let evs := [SetAction (Some JNull); Mount; NetOpen 0;
              SetAction (Some (JBool true)); NetMessage 0 ping_frame]%nat in
  let w := after evs secure_page in
  run evs (init secure_page) = Some w
  ∧ run [Mount; NetOpen 0; NetMessage 0 ping_frame]%nat (init secure_page)
    = Some (erase_action w)
  ∧ dispatched (erase_action w) = dispatched w.
Proof.
  intros evs w.
  assert (run evs (init secure_page) = Some w) as H1 by (vm_compute; reflexivity).
  destruct (action_property_is_never_read secure_page evs w H1)
    as (Hr & _ & _ & Hd & _).
  split; [exact H1|]. split; [exact Hr|exact Hd].
Defined.
